(** * Execution traces of pyro/poutine/trace_poutine.py

    A shallow embedding of [identify_dense_edges], [TraceMessenger] and
    [TracePoutine], together with the parts of the [Trace] graph, of the
    [Messenger] dispatch protocol and of the [Poutine] scope they rely on;
    and of the constructors of the combined kernels and of
    [_Horner_evaluate] of pyro/contrib/gp/kernels/kernel.py. *)

From Stdlib Require Import ZArith String List Bool Lia.
From stdpp Require Import base list strings gmap sorting.
Import ListNotations.

Set Implicit Arguments.

Local Open Scope string_scope.
Local Open Scope Z_scope.

(** ** Exceptions *)

(** The exceptions the modelled code can raise.  [RuntimeError] carries the
    formatted message; [Failure] stands for any exception raised by the traced
    computation itself. *)
Inductive Exn : Type :=
| RuntimeError (message : string)
| AssertionError
| KeyError (key : string)
| AttributeError (attr : string)
| DuplicateSiteError (site : string)
| StackCorruption
| Failure (payload : string).

(** ** Frames of a conditional-independence stack *)

(** A frame is read through [query.name] and [query.counter] only. *)
Record CondIndepStackFrame : Type := mkFrame {
  frame_name : string;
  frame_counter : Z
}.

Section Tracing.

(** The payload carried by a site is opaque to this code. *)
Variable Value : Type.

(** ** Sites: effect messages and the node dictionaries made from them *)

(** A message is a dictionary; [_postprocess_message] stores a copy of it as
    the node's attributes, so messages and nodes share one shape.  A key that
    may be missing from the dictionary is an [option]. *)
Record Site : Type := mkSite {
  name : string;
  type : string;
  value : option Value;
  args : option (list Value);
  kwargs : option (list (string * Value));
  is_observed : bool;
  cond_indep_stack : list CondIndepStackFrame
}.

(** ** The trace graph *)

(** Modelled from the spec: the [Trace] class (module [.trace]) is a container
    of named nodes, kept in insertion order, plus a set of directed edges
    between names, with a [graph_type] fixed at creation. *)
Record Trace : Type := mkTrace {
  graph_type : string;
  nodes : list (string * Site);
  edges : list (string * string)
}.

(** Modelled from the spec: [Trace(graph_type=...)] is an empty graph. *)
Definition Trace_new (gt : string) : Trace :=
  {| graph_type := gt; nodes := []; edges := [] |}.

(** Modelled from the spec: [name in trace], the membership test by name. *)
Definition contains (t : Trace) (key : string) : bool :=
  existsb (fun kv => String.eqb (fst kv) key) (nodes t).

(** Modelled from the spec: [trace.nodes[key]], [None] where Python raises
    [KeyError]. *)
Fixpoint assoc (key : string) (l : list (string * Site)) : option Site :=
  match l with
  | [] => None
  | (k, s) :: rest => if String.eqb k key then Some s else assoc key rest
  end.

Definition get_node (t : Trace) (key : string) : option Site :=
  assoc key (nodes t).

(** Modelled from the spec: [Trace.add_node] inserts a node by name and
    rejects a name that is already present. *)
Definition add_node (key : string) (site : Site) (t : Trace) : Exn + Trace :=
  if contains t key then inl (DuplicateSiteError key)
  else inr {| graph_type := graph_type t;
              nodes := nodes t ++ [(key, site)];
              edges := edges t |}.

Definition edge_eqb (e1 e2 : string * string) : bool :=
  String.eqb (fst e1) (fst e2) && String.eqb (snd e1) (snd e2).

Definition has_edge (t : Trace) (u v : string) : bool :=
  existsb (edge_eqb (u, v)) (edges t).

(** Modelled from the spec: [Trace.add_edge] is idempotent, adding an edge
    that exists is a no-op. *)
Definition add_edge (u v : string) (t : Trace) : Trace :=
  if has_edge t u v then t
  else {| graph_type := graph_type t;
          nodes := nodes t;
          edges := edges t ++ [(u, v)] |}.

(** ** identify_dense_edges *)

(** [site_is_subsample] is imported from [.util]; it is a boolean function
    of a node. *)
Variable site_is_subsample : Site -> bool.

(** The innermost loop over [zip(node.cond_indep_stack,
    past_node.cond_indep_stack)]: the result is [past_node_independent]. *)
Fixpoint past_node_independent
    (query_stack target_stack : list CondIndepStackFrame) : bool :=
  match query_stack, target_stack with
  | query :: qs, target :: ts =>
      if String.eqb (frame_name query) (frame_name target)
         && negb (Z.eqb (frame_counter query) (frame_counter target))
      then true
      else past_node_independent qs ts
  | _, _ => false
  end.

(** The inner [for past_name, past_node in trace.nodes.items()] loop for one
    outer [(name, node)]; [items] is what remains to be visited.  Note that
    the subsample test reads [node], as the source does. *)
Fixpoint inner_loop (key : string) (node : Site)
    (items : list (string * Site)) (t : Trace) : Trace :=
  match items with
  | [] => t
  | (past_name, past_node) :: rest =>
      if site_is_subsample node then inner_loop key node rest t
      else if String.eqb (type past_node) "sample" then
        if String.eqb past_name key then t
        else
          let t' :=
            if past_node_independent (cond_indep_stack node)
                                     (cond_indep_stack past_node)
            then t
            else add_edge past_name key t in
          inner_loop key node rest t'
      else inner_loop key node rest t
  end.

(** The outer [for name, node in trace.nodes.items()] loop. *)
Fixpoint outer_loop (items : list (string * Site)) (t : Trace) : Trace :=
  match items with
  | [] => t
  | (key, node) :: rest =>
      if site_is_subsample node then outer_loop rest t
      else if String.eqb (type node) "sample" then
        outer_loop rest (inner_loop key node (nodes t) t)
      else outer_loop rest t
  end.

Definition identify_dense_edges (t : Trace) : Trace :=
  outer_loop (nodes t) t.

(** ** Objects and the world they live in *)

(** A [TraceMessenger] object: its identity, the [graph_type] set by
    [__init__], and the attribute [trace], a reference to a [Trace] object
    that is unset until the first call. *)
Record TraceMessenger : Type := mkMessenger {
  msngr_id : nat;
  msngr_graph_type : string;
  msngr_trace : option nat
}.

(** A computation under trace: it returns, raises, or performs a [sample] or
    [param] effect and goes on with the value the effect resolves to. *)
Inductive Comp : Type :=
| Return (v : Value)
| Raise (e : Exn)
| Effect (msg : Site) (k : Value -> Comp).

(** A [TracePoutine] object: the messenger it owns, the function it wraps,
    and its own attribute [trace]. *)
Record TracePoutine : Type := mkPoutine {
  msngr : TraceMessenger;
  fn : list Value -> list (string * Value) -> Comp;
  poutine_trace : option nat
}.

(** The world: the process-wide stack of installed handlers (innermost
    last), the [Trace] objects allocated so far, addressed by position, and
    the poutine under study. *)
Record State : Type := mkState {
  PYRO_STACK : list nat;
  heap : list Trace;
  self : TracePoutine
}.

Definition set_stack (stk : list nat) (s : State) : State :=
  {| PYRO_STACK := stk; heap := heap s; self := self s |}.

Definition set_heap (h : list Trace) (s : State) : State :=
  {| PYRO_STACK := PYRO_STACK s; heap := h; self := self s |}.

Definition set_self (p : TracePoutine) (s : State) : State :=
  {| PYRO_STACK := PYRO_STACK s; heap := heap s; self := p |}.

(** [self.msngr.trace] as a reference, and the [Trace] object it refers
    to. *)
Definition live_loc (s : State) : option nat := msngr_trace (msngr (self s)).

Definition live_trace (s : State) : option Trace :=
  match live_loc s with
  | Some l => heap s !! l
  | None => None
  end.

(** The poutine [p] once its attribute [trace] and its messenger's both
    refer to the object at [l]. *)
Definition bound_to (l : nat) (p : TracePoutine) : TracePoutine :=
  {| msngr := {| msngr_id := msngr_id (msngr p);
                 msngr_graph_type := msngr_graph_type (msngr p);
                 msngr_trace := Some l |};
     fn := fn p;
     poutine_trace := Some l |}.

(** ** A state and exception monad *)

Definition M (A : Type) : Type := State -> State * (Exn + A).

Definition ret {A : Type} (a : A) : M A := fun s => (s, inr a).

Definition raise {A : Type} (e : Exn) : M A := fun s => (s, inl e).

Definition bind {A B : Type} (m : M A) (f : A -> M B) : M B :=
  fun s =>
    match m s with
    | (s', inr a) => f a s'
    | (s', inl e) => (s', inl e)
    end.

Notation "x <- m ;; k" := (bind m (fun x => k))
  (at level 100, m at next level, right associativity).
Notation "m ;;; k" := (bind m (fun _ => k))
  (at level 100, right associativity).

Definition lift {A : Type} (r : Exn + A) : M A := fun s => (s, r).

(** [with enter, exit: body]: [exit] runs on every path out of [body]; an
    exception of [body] is raised again after it, unless [exit] raises. *)
Definition with_ {A : Type} (enter exit : M unit) (body : M A) : M A :=
  fun s =>
    match enter s with
    | (s1, inl e) => (s1, inl e)
    | (s1, inr _) =>
        let (s2, r) := body s1 in
        match exit s2 with
        | (s3, inl e) => (s3, inl e)
        | (s3, inr _) => (s3, r)
        end
    end.

(** *** Trace objects in the heap *)

Definition alloc (t : Trace) : M nat :=
  fun s => (set_heap (heap s ++ [t]) s, inr (length (heap s))).

Definition read (l : nat) : M Trace :=
  fun s =>
    match heap s !! l with
    | Some t => (s, inr t)
    | None => (s, inl (AttributeError "trace"))
    end.

Definition write (l : nat) (t : Trace) : M unit :=
  fun s => (set_heap (<[l := t]> (heap s)) s, inr tt).

(** [self.msngr.trace], an [AttributeError] while the attribute is unset. *)
Definition get_msngr_trace : M nat :=
  fun s =>
    match msngr_trace (msngr (self s)) with
    | Some l => (s, inr l)
    | None => (s, inl (AttributeError "trace"))
    end.

(** [self.msngr.trace = l]. *)
Definition set_msngr_trace (l : nat) : M unit :=
  fun s =>
    (set_self {| msngr := {| msngr_id := msngr_id (msngr (self s));
                             msngr_graph_type :=
                               msngr_graph_type (msngr (self s));
                             msngr_trace := Some l |};
                 fn := fn (self s);
                 poutine_trace := poutine_trace (self s) |} s, inr tt).

(** [self.trace = l] on the poutine. *)
Definition set_poutine_trace (l : nat) : M unit :=
  fun s =>
    (set_self {| msngr := msngr (self s);
                 fn := fn (self s);
                 poutine_trace := Some l |} s, inr tt).

Definition get_graph_type : M string :=
  fun s => (s, inr (msngr_graph_type (msngr (self s)))).

(** [trace.add_node(key, **site)] on the object at [l]. *)
Definition Trace_add_node (l : nat) (key : string) (site : Site) : M unit :=
  t <- read l ;;
  t' <- lift (add_node key site t) ;;
  write l t'.

(** ** TraceMessenger *)

(** [TraceMessenger.__init__]: [None] stands for the default argument. *)
Definition TraceMessenger_init (ident : nat) (gt : option string)
  : Exn + TraceMessenger :=
  let gt' := match gt with None => "flat" | Some g => g end in
  if String.eqb gt' "flat" || String.eqb gt' "dense"
  then inr {| msngr_id := ident; msngr_graph_type := gt';
              msngr_trace := None |}
  else inl AssertionError.

(** Modelled from the spec: [Messenger.__enter__] installs the handler, it
    pushes it on the stack. *)
Definition Messenger_enter : M unit :=
  fun s => (set_stack (PYRO_STACK s ++ [msngr_id (msngr (self s))]) s, inr tt).

(** Modelled from the spec: [Messenger.__exit__] uninstalls the handler, it
    pops the top of the stack and fails with [StackCorruption] when the top
    is not the handler being removed. *)
Definition Messenger_exit : M unit :=
  fun s =>
    match last (PYRO_STACK s) with
    | Some h =>
        if Nat.eqb h (msngr_id (msngr (self s)))
        then (set_stack (removelast (PYRO_STACK s)) s, inr tt)
        else (s, inl StackCorruption)
    | None => (s, inl StackCorruption)
    end.

(** [TraceMessenger.__exit__]. *)
Definition TraceMessenger_exit : M unit :=
  gt <- get_graph_type ;;
  (if String.eqb gt "dense"
   then l <- get_msngr_trace ;;
        t <- read l ;;
        write l (identify_dense_edges t)
   else ret tt) ;;;
  Messenger_exit.

(** [TraceMessenger.get_trace]: [self.trace.copy()], a new [Trace] object
    with the nodes and edges of the live one. *)
Definition TraceMessenger_get_trace : M nat :=
  l <- get_msngr_trace ;;
  t <- read l ;;
  alloc t.

(** [dict[key]] for a key that may be missing. *)
Definition getitem {A : Type} (key : string) (o : option A) : M A :=
  match o with
  | Some a => ret a
  | None => raise (KeyError key)
  end.

(** [TraceMessenger._reset]; the base class's [_reset] does nothing. *)
Definition _reset : M unit :=
  gt <- get_graph_type ;;
  tr <- alloc (Trace_new gt) ;;
  l <- get_msngr_trace ;;
  t <- read l ;;
  input <- getitem "_INPUT" (get_node t "_INPUT") ;;
  a <- getitem "args" (args input) ;;
  kw <- getitem "kwargs" (kwargs input) ;;
  Trace_add_node tr "_INPUT"
    {| name := "_INPUT"; type := "input"; value := None;
       args := Some a; kwargs := Some kw;
       is_observed := false; cond_indep_stack := [] |} ;;;
  set_msngr_trace tr.

(** [TraceMessenger._pyro_sample]. *)
Definition _pyro_sample (msg : Site) : M unit :=
  l <- get_msngr_trace ;;
  t <- read l ;;
  if contains t (name msg) then
    site <- getitem (name msg) (get_node t (name msg)) ;;
    if String.eqb (type site) "param" then
      raise (RuntimeError (name msg ++ " is already in the trace as a param"))
    else if String.eqb (type site) "sample" then
      raise (RuntimeError
               ("Multiple pyro.sample sites named '" ++ name msg ++ "'"))
    else ret tt
  else ret tt.

(** [TraceMessenger._pyro_param]. *)
Definition _pyro_param (msg : Site) : M unit :=
  l <- get_msngr_trace ;;
  t <- read l ;;
  if contains t (name msg) then
    site <- getitem (name msg) (get_node t (name msg)) ;;
    if String.eqb (type site) "sample" then
      raise (RuntimeError (name msg ++ " is already in the trace as a sample"))
    else ret tt
  else ret tt.

(** [TraceMessenger._postprocess_message]: [site] is a copy of [msg] whose
    [value] is set to the value [msg] already has. *)
Definition _postprocess_message (msg : Site) : M unit :=
  let val := value msg in
  let site := {| name := name msg; type := type msg; value := val;
                 args := args msg; kwargs := kwargs msg;
                 is_observed := is_observed msg;
                 cond_indep_stack := cond_indep_stack msg |} in
  l <- get_msngr_trace ;;
  Trace_add_node l (name msg) site.

(** ** Dispatch of an effect *)

(** Modelled from the spec: [Messenger._process_message] hands a message
    to the hook of its effect kind. *)
Definition _process_message (msg : Site) : M unit :=
  if String.eqb (type msg) "sample" then _pyro_sample msg
  else if String.eqb (type msg) "param" then _pyro_param msg
  else ret tt.

(** What the handlers further out and the default behaviour of the
    primitive settle as the value of a message, or the exception they
    raise. *)
Variable resolve : Site -> Exn + Value.

(** The message once its value is settled: [msg["value"] = v]. *)
Definition settled (msg : Site) (v : Value) : Site :=
  {| name := name msg; type := type msg; value := Some v;
     args := args msg; kwargs := kwargs msg;
     is_observed := is_observed msg;
     cond_indep_stack := cond_indep_stack msg |}.

(** Whether the tracing handler is on the stack of installed handlers. *)
Definition installed (s : State) : bool :=
  existsb (Nat.eqb (msngr_id (msngr (self s)))) (PYRO_STACK s).

(** Modelled from the spec: the dispatch of one effect goes to the handlers
    that are on the stack.  When the tracing handler is installed, its
    [process] hook runs, the value is settled, and its [postprocess] hook
    runs on the settled message; when it is not, the value is settled and
    the handler sees nothing of the effect.  What the other handlers and the
    default behaviour of the primitive do is [resolve]. *)
Definition apply_stack (msg : Site) : M Value :=
  fun s =>
    if installed s then
      (_process_message msg ;;;
       v <- lift (resolve msg) ;;
       _postprocess_message (settled msg v) ;;;
       ret v) s
    else
      (v <- lift (resolve msg) ;;
       ret v) s.

Fixpoint run (c : Comp) : M Value :=
  match c with
  | Return v => ret v
  | Raise e => raise e
  | Effect msg k => v <- apply_stack msg ;; run (k v)
  end.

(** ** Poutine and TracePoutine *)

(** Modelled from the spec: [Poutine.__call__] runs the bound function
    with the handler installed, and uninstalls it on every exit path. *)
Definition Poutine_call (a : list Value) (kw : list (string * Value))
  : M Value :=
  with_ Messenger_enter TraceMessenger_exit
        (fun s => run (fn (self s) a kw) s).

(** [TracePoutine.__init__]. *)
Definition TracePoutine_init (ident : nat)
    (f : list Value -> list (string * Value) -> Comp) (gt : option string)
  : Exn + TracePoutine :=
  match TraceMessenger_init ident gt with
  | inl e => inl e
  | inr m => inr {| msngr := m; fn := f; poutine_trace := None |}
  end.

(** The [_INPUT] node [TracePoutine.__call__] records. *)
Definition input_site (a : list Value) (kw : list (string * Value)) : Site :=
  {| name := "_INPUT"; type := "args"; value := None;
     args := Some a; kwargs := Some kw;
     is_observed := false; cond_indep_stack := [] |}.

(** The [_RETURN] node [TracePoutine.__call__] records. *)
Definition return_site (r : Value) : Site :=
  {| name := "_RETURN"; type := "return"; value := Some r;
     args := None; kwargs := None;
     is_observed := false; cond_indep_stack := [] |}.

(** [TracePoutine.__call__]. *)
Definition TracePoutine_call (a : list Value) (kw : list (string * Value))
  : M Value :=
  gt <- get_graph_type ;;
  tr <- alloc (Trace_new gt) ;;
  set_msngr_trace tr ;;;
  l <- get_msngr_trace ;;
  set_poutine_trace l ;;;
  l <- get_msngr_trace ;;
  Trace_add_node l "_INPUT" (input_site a kw) ;;;
  r <- Poutine_call a kw ;;
  l <- get_msngr_trace ;;
  Trace_add_node l "_RETURN" (return_site r) ;;;
  ret r.

(** The statements of [TracePoutine.__call__] that come before the call of
    [Poutine.__call__]. *)
Definition TracePoutine_setup (a : list Value) (kw : list (string * Value))
  : M unit :=
  gt <- get_graph_type ;;
  tr <- alloc (Trace_new gt) ;;
  set_msngr_trace tr ;;;
  l <- get_msngr_trace ;;
  set_poutine_trace l ;;;
  l <- get_msngr_trace ;;
  Trace_add_node l "_INPUT" (input_site a kw).

(** [TracePoutine.get_trace]. *)
Definition TracePoutine_get_trace (a : list Value)
    (kw : list (string * Value)) : M nat :=
  TracePoutine_call a kw ;;;
  TraceMessenger_get_trace.

(** ** What the handler does, read on the live trace alone *)

(** The test of the [process] hook on the live trace [t]. *)
Definition process_check (t : Trace) (msg : Site) : Exn + unit :=
  if String.eqb (type msg) "sample" then
    if contains t (name msg) then
      match get_node t (name msg) with
      | None => inl (KeyError (name msg))
      | Some site =>
          if String.eqb (type site) "param" then
            inl (RuntimeError
                   (name msg ++ " is already in the trace as a param"))
          else if String.eqb (type site) "sample" then
            inl (RuntimeError
                   ("Multiple pyro.sample sites named '" ++ name msg ++ "'"))
          else inr tt
      end
    else inr tt
  else if String.eqb (type msg) "param" then
    if contains t (name msg) then
      match get_node t (name msg) with
      | None => inl (KeyError (name msg))
      | Some site =>
          if String.eqb (type site) "sample" then
            inl (RuntimeError
                   (name msg ++ " is already in the trace as a sample"))
          else inr tt
      end
    else inr tt
  else inr tt.

(** One effect on the live trace. *)
Definition trace_apply (msg : Site) (t : Trace) : Trace * (Exn + Value) :=
  match process_check t msg with
  | inl e => (t, inl e)
  | inr _ =>
      match resolve msg with
      | inl e => (t, inl e)
      | inr v =>
          match add_node (name msg) (settled msg v) t with
          | inl e => (t, inl e)
          | inr t' => (t', inr v)
          end
      end
  end.

(** A whole computation on the live trace. *)
Fixpoint trace_run (c : Comp) (t : Trace) : Trace * (Exn + Value) :=
  match c with
  | Return v => (t, inr v)
  | Raise e => (t, inl e)
  | Effect msg k =>
      match trace_apply msg t with
      | (t', inr v) => trace_run (k v) t'
      | (t', inl e) => (t', inl e)
      end
  end.

(** The trace a call starts the computation with. *)
Definition input_trace (gt : string) (input : Site) : Trace :=
  {| graph_type := gt; nodes := [("_INPUT", input)]; edges := [] |}.

(** What [TraceMessenger.__exit__] makes of the live trace. *)
Definition exit_trace (gt : string) (t : Trace) : Trace :=
  if String.eqb gt "dense" then identify_dense_edges t else t.

(** The trace a call of the poutine builds, and its outcome. *)
Definition call_trace (gt : string) (c : Comp) (input : Site)
  : Trace * (Exn + Value) :=
  let (t1, r) := trace_run c (input_trace gt input) in
  let t2 := exit_trace gt t1 in
  match r with
  | inl e => (t2, inl e)
  | inr v =>
      match add_node "_RETURN" (return_site v) t2 with
      | inl e => (t2, inl e)
      | inr t3 => (t3, inr v)
      end
  end.

(** The computation [c], started in [s], performs the effect [msg] in the
    state [s'], every effect before it having gone through. *)
Inductive reaches : Comp -> State -> Site -> State -> Prop :=
| reaches_here (msg : Site) (k : Value -> Comp) (s : State) :
    reaches (Effect msg k) s msg s
| reaches_later (msg0 : Site) (k0 : Value -> Comp) (s s1 : State)
    (v : Value) (msg : Site) (s' : State) :
    apply_stack msg0 s = (s1, inr v) ->
    reaches (k0 v) s1 msg s' ->
    reaches (Effect msg0 k0) s msg s'.

(** The independence test of the spec: some pair of frames at the same
    position of the two stacks has the same name and different counters. *)
Definition frames_differ_in_counter (N P : Site) : Prop :=
  exists query target,
    In (query, target) (combine (cond_indep_stack N) (cond_indep_stack P))
    /\ frame_name query = frame_name target
    /\ frame_counter query <> frame_counter target.

(** The keys of the node dictionary. *)
Definition node_names (t : Trace) : list string := map fst (nodes t).

(** An action that changes neither the stack of handlers nor the poutine,
    however it ends. *)
Definition keeps_poutine {A : Type} (m : M A) : Prop :=
  forall s s' r,
    m s = (s', r) -> PYRO_STACK s' = PYRO_STACK s /\ self s' = self s.

(** A poutine that has just been built, in a world with the handlers [stk]
    installed and the trace objects [h] allocated. *)
Definition world (stk : list nat) (h : list Trace) (p : TracePoutine)
  : State :=
  {| PYRO_STACK := stk; heap := h; self := p |}.

End Tracing.

Arguments Trace_new {Value} gt.
Arguments Raise {Value} e.

(** ** Concrete sites, traces and computations *)

Definition sample_site (n : string) (stack : list CondIndepStackFrame)
  : Site Z :=
  {| name := n; type := "sample"; value := None;
     args := Some []; kwargs := Some [];
     is_observed := false; cond_indep_stack := stack |}.

Definition param_site (n : string) : Site Z :=
  {| name := n; type := "param"; value := None;
     args := Some []; kwargs := Some [];
     is_observed := false; cond_indep_stack := [] |}.

(** A classifier for which no site is a subsample site. *)
Definition no_subsample (s : Site Z) : bool := false.

(** A classifier for which the subsample sites are the [sample] sites whose
    name is in [pseudo]. *)
Definition pseudo_site (pseudo : list string) (s : Site Z) : bool :=
  String.eqb (type s) "sample" && existsb (String.eqb (name s)) pseudo.

(** Two replicates of [x] inside a plate, then [y] outside of it. *)
Definition plate_trace : Trace Z :=
  {| graph_type := "dense";
     nodes := [("x@0", sample_site "x@0" [mkFrame "plate" 0]);
               ("x@1", sample_site "x@1" [mkFrame "plate" 1]);
               ("y", sample_site "y" [])];
     edges := [] |}.

(** A subsample site [ind] recorded before an ordinary sample site [x]. *)
Definition pseudo_trace : Trace Z :=
  {| graph_type := "dense";
     nodes := [("ind", sample_site "ind" []); ("x", sample_site "x" [])];
     edges := [] |}.

(** A subsample site [ind] between two ordinary sample sites. *)
Definition interposed_trace : Trace Z :=
  {| graph_type := "dense";
     nodes := [("a", sample_site "a" []); ("ind", sample_site "ind" []);
               ("b", sample_site "b" [])];
     edges := [] |}.

(** Every effect resolves to [0]. *)
Definition resolve_zero (msg : Site Z) : Exn + Z := inr 0.

Definition constant_fn (a : list Z) (kw : list (string * Z)) : Comp Z :=
  Return 0.

Definition sample_twice (a : list Z) (kw : list (string * Z)) : Comp Z :=
  Effect (sample_site "x" [])
    (fun _ => Effect (sample_site "x" []) (fun v => Return v)).

Definition param_then_sample (a : list Z) (kw : list (string * Z)) : Comp Z :=
  Effect (param_site "w")
    (fun _ => Effect (sample_site "w" []) (fun v => Return v)).

Definition param_twice (a : list Z) (kw : list (string * Z)) : Comp Z :=
  Effect (param_site "w")
    (fun _ => Effect (param_site "w") (fun v => Return v)).

Definition plate_model (a : list Z) (kw : list (string * Z)) : Comp Z :=
  Effect (sample_site "x@0" [mkFrame "plate" 0])
    (fun _ => Effect (sample_site "x@1" [mkFrame "plate" 1])
    (fun _ => Effect (sample_site "y" []) (fun v => Return v))).

Definition failing_fn (a : list Z) (kw : list (string * Z)) : Comp Z :=
  Effect (sample_site "x" []) (fun _ => Raise (Failure "boom")).

(** A poutine around [f] whose messenger has identity [7]. *)
Definition poutine_of (gt : string)
    (f : list Z -> list (string * Z) -> Comp Z) : TracePoutine Z :=
  {| msngr := {| msngr_id := 7; msngr_graph_type := gt;
                 msngr_trace := None |};
     fn := f;
     poutine_trace := None |}.

(** ** The computation without the tracing handler *)

Section Unhandled.

Variable Value : Type.
Variable resolve : Site Value -> Exn + Value.

(** What the computation does when no handler records it: the messages it
    sends, each with the value it is settled to, and its outcome. *)
Fixpoint unhandled (c : Comp Value) : list (Site Value) * (Exn + Value) :=
  match c with
  | Return v => ([], inr v)
  | Raise e => ([], inl e)
  | Effect msg k =>
      match resolve msg with
      | inl e => ([], inl e)
      | inr v =>
          let (sites, r) := unhandled (k v) in
          (settled msg v :: sites, r)
      end
  end.

(** The entry of the node dictionary a settled message is written to. *)
Definition entry (m : Site Value) : string * Site Value := (name m, m).

(** The [_INPUT] node [TraceMessenger._reset] records. *)
Definition reset_site (a : list Value) (kw : list (string * Value))
  : Site Value :=
  {| name := "_INPUT"; type := "input"; value := None;
     args := Some a; kwargs := Some kw;
     is_observed := false; cond_indep_stack := [] |}.

(** The trace that holds the [_INPUT] node and then the given sites, and no
    edge. *)
Definition recorded (gt : string) (input : Site Value)
    (sites : list (Site Value)) : Trace Value :=
  {| graph_type := gt;
     nodes := ("_INPUT", input) :: map entry sites;
     edges := [] |}.

End Unhandled.

(** A model with a [param] site, two replicates inside a plate and a site
    outside of it. *)
Definition mixed_model (a : list Z) (kw : list (string * Z)) : Comp Z :=
  Effect (param_site "w")
    (fun _ => Effect (sample_site "x@0" [mkFrame "plate" 0])
    (fun _ => Effect (sample_site "x@1" [mkFrame "plate" 1])
    (fun _ => Effect (sample_site "y" []) (fun v => Return v)))).

(** * Kernels: pyro/contrib/gp/kernels/kernel.py *)

Module Kernels.

Inductive Error : Type :=
| ValueError (message : string)
| TypeError (message : string)
| KeyError (message : string)
| IndexError.

(** [len(l)]. *)
Definition len {A : Type} (l : list A) : Z := Z.of_nat (length l).

(** [list(range(n))]: empty when [n] is not positive. *)
Definition range (n : Z) : list Z := map Z.of_nat (seq 0 (Z.to_nat n)).

(** [list(range(start, -1, -1))]: [start], ..., [0]. *)
Definition range_down (start : Z) : list Z := rev (range (start + 1)).

(** [l[i]] on a list: a negative index counts from the end, an index out of
    range raises [IndexError]. *)
Definition getitem (l : list Z) (i : Z) : Error + Z :=
  let j := if i <? 0 then i + len l else i in
  if (0 <=? j) && (j <? len l) then
    match l !! Z.to_nat j with
    | Some x => inr x
    | None => inl IndexError
    end
  else inl IndexError.

(** ** _Horner_evaluate, on integers *)

(** The loop [for i in range(n-1, -1, -1): b = coef[i] + b * x]. *)
Fixpoint Horner_loop (x : Z) (coef : list Z) (indices : list Z) (b : Z)
  : Error + Z :=
  match indices with
  | [] => inr b
  | i :: rest =>
      match getitem coef i with
      | inl e => inl e
      | inr c => Horner_loop x coef rest (c + b * x)
      end
  end.

Definition _Horner_evaluate (x : Z) (coef : list Z) : Error + Z :=
  let n := len coef - 1 in
  match getitem coef n with
  | inl e => inl e
  | inr b => Horner_loop x coef (range_down (n - 1)) b
  end.

(** The value at [x] of the polynomial whose coefficient of degree [k + i]
    is the [i]-th element of [coef]. *)
Fixpoint polynomial (x : Z) (coef : list Z) (k : nat) : Z :=
  match coef with
  | [] => 0
  | c :: rest => c * x ^ Z.of_nat k + polynomial x rest (S k)
  end.

(** ** Kernel objects *)

(** An ordered dictionary from kernel names to kernel objects, the objects
    given by their identity.  A name is a string or [None]. *)
Definition key_eqb (a b : option string) : bool :=
  match a, b with
  | Some x, Some y => String.eqb x y
  | None, None => true
  | _, _ => false
  end.

Fixpoint dict_get (key : option string) (d : list (option string * nat))
  : option nat :=
  match d with
  | [] => None
  | (k, v) :: rest => if key_eqb k key then Some v else dict_get key rest
  end.

(** [key in d]. *)
Definition dict_contains (key : option string)
    (d : list (option string * nat)) : bool :=
  match dict_get key d with
  | Some _ => true
  | None => false
  end.

(** [d[key] = v]: the value is replaced where the key is, a new key goes
    last. *)
Fixpoint dict_set (key : option string) (v : nat)
    (d : list (option string * nat)) : list (option string * nat) :=
  match d with
  | [] => [(key, v)]
  | (k, x) :: rest =>
      if key_eqb k key then (k, v) :: rest
      else (k, x) :: dict_set key v rest
  end.

(** [d.update(d')]. *)
Definition dict_update (d d' : list (option string * nat))
  : list (option string * nat) :=
  fold_left (fun acc kv => dict_set (fst kv) (snd kv) acc) d' d.

(** The attributes of a kernel object this file reads and writes: its
    identity, the [name] the base class keeps, [input_dim], [active_dims]
    and [_subkernels].  The attributes [kern0], [kern1] and [kern] only feed
    [forward], which works on tensors. *)
Record Kernel : Type := mkKernel {
  ident : nat;
  name : option string;
  input_dim : Z;
  active_dims : list Z;
  _subkernels : list (option string * nat)
}.

(** What [Combination.__init__] may be given: a kernel, a number, or
    anything else. *)
Inductive Object : Type :=
| OKernel (k : Kernel)
| ONumber
| OOther.

(** [Kernel.__init__]. *)
Definition Kernel_init (self : nat) (input_dim : Z)
    (active_dims : option (list Z)) (name : option string)
  : Error + Kernel :=
  match active_dims with
  | None =>
      inr {| ident := self; name := name; input_dim := input_dim;
             active_dims := range input_dim; _subkernels := [] |}
  | Some dims =>
      if negb (input_dim =? len dims) then
        inl (ValueError
          "Input size and the length of active dimensionals should be equal.")
      else
        inr {| ident := self; name := name; input_dim := input_dim;
               active_dims := dims; _subkernels := [] |}
  end.

(** How a name is printed by [format]. *)
Definition show_name (n : option string) : string :=
  match n with
  | Some x => x
  | None => "None"
  end.


(** [sorted(s)] for a set of integers. *)
Definition sorted (s : gset Z) : list Z := merge_sort Z.le (elements s).

(** The active dimensions of a combination, as a set: lines 158 to 167 of
    [Combination.__init__]. *)
Definition combined_dims (kern0 : Kernel) (kern1 : Object) : Error + gset Z :=
  let active_dims : gset Z := list_to_set (active_dims kern0) in
  match kern1 with
  | OKernel k1 =>
      let active_dims1 : gset Z := list_to_set (Kernels.active_dims k1) in
      if bool_decide (active_dims = active_dims1) then inr active_dims
      else if (len (elements (active_dims ∩ active_dims1)) =? 0)
      then inr (active_dims ∪ active_dims1)
      else
        inl (ValueError
          "Sub-kernels must act on the same active dimensions or disjoint active dimensions (to create direct sum or tensor product or kernels).")
  | _ => inr active_dims
  end.

(** The [_subkernels] a derived kernel starts with: those of [kern], or
    [kern] itself when it has none (lines 176 to 179 and 235 to 238). *)
Definition inherited_subkernels (kern : Kernel)
  : list (option string * nat) :=
  match _subkernels kern with
  | [] => dict_set (name kern) (ident kern) []
  | _ :: _ => dict_update [] (_subkernels kern)
  end.

(** [subkernels1] of [Combination.__init__]: the subkernels of [kern1], or
    [kern1] itself when it has none (lines 182 to 185). *)
Definition own_subkernels (kern : Kernel) : list (option string * nat) :=
  match _subkernels kern with
  | [] => [(name kern, ident kern)]
  | _ :: _ => _subkernels kern
  end.

(** The loop [for name, kernel in subkernels1.items()] of
    [Combination.__init__]. *)
Fixpoint merge_subkernels (items subkernels : list (option string * nat))
  : Error + list (option string * nat) :=
  match items with
  | [] => inr subkernels
  | (name, kernel) :: rest =>
      if dict_contains name subkernels then
        match dict_get name subkernels with
        | Some v =>
            if negb (Nat.eqb v kernel) then
              inl (KeyError
                ("Detect two different subkernels with the same name '"
                 ++ show_name name
                 ++ "'. Consider to change the default name of these subkernels to distinguish them."))
            else merge_subkernels rest subkernels
        | None => inl (KeyError (show_name name))
        end
      else merge_subkernels rest (dict_set name kernel subkernels)
  end.

(** [Combination.__init__]. *)
Definition Combination_init (self : nat) (kern0 kern1 : Object)
    (name : option string) : Error + Kernel :=
  match kern0 with
  | OKernel k0 =>
      match kern1 with
      | OOther =>
          inl (TypeError
            "The second component of a combined kernel must be a Kernel instance or a number.")
      | _ =>
          match combined_dims k0 kern1 with
          | inl e => inl e
          | inr dims =>
              let active_dims := sorted dims in
              let input_dim := len active_dims in
              match Kernel_init self input_dim (Some active_dims) name with
              | inl e => inl e
              | inr k =>
                  let subkernels := inherited_subkernels k0 in
                  let merged :=
                    match kern1 with
                    | OKernel k1 =>
                        let subkernels1 := own_subkernels k1 in
                        merge_subkernels subkernels1 subkernels
                    | _ => inr subkernels
                    end in
                  match merged with
                  | inl e => inl e
                  | inr subs =>
                      inr {| ident := ident k; name := Kernels.name k;
                             input_dim := Kernels.input_dim k;
                             active_dims := Kernels.active_dims k;
                             _subkernels := subs |}
                  end
              end
          end
      end
  | _ =>
      inl (TypeError
        "The first component of a combined kernel must be a Kernel instance.")
  end.

(** [Kernel.add] and [Kernel.mul]: [Sum] and [Product] have the constructor
    of [Combination]. *)
Definition add (fresh : nat) (self : Kernel) (other : Object)
    (name : option string) : Error + Kernel :=
  Combination_init fresh (OKernel self) other name.

Definition mul (fresh : nat) (self : Kernel) (other : Object)
    (name : option string) : Error + Kernel :=
  Combination_init fresh (OKernel self) other name.

(** [Transforming.__init__]. *)
Definition Transforming_init (self : nat) (kern : Kernel)
    (name : option string) : Error + Kernel :=
  match Kernel_init self (input_dim kern) (Some (active_dims kern)) name with
  | inl e => inl e
  | inr k =>
      inr {| ident := ident k; name := Kernels.name k;
             input_dim := Kernels.input_dim k;
             active_dims := Kernels.active_dims k;
             _subkernels := inherited_subkernels kern |}
  end.

(** [Kernel.exp]: [Exponent] has the constructor of [Transforming]. *)
Definition exp (fresh : nat) (self : Kernel) (name : option string)
  : Error + Kernel :=
  Transforming_init fresh self name.

(** Two base kernels, on the dimensions 0, 1 and on the dimension 2. *)
Definition rbf : Kernel :=
  {| ident := 1; name := Some "RBF"; input_dim := 2;
     active_dims := [0; 1]; _subkernels := [] |}.

Definition linear : Kernel :=
  {| ident := 2; name := Some "Linear"; input_dim := 1;
     active_dims := [2]; _subkernels := [] |}.

(** A base kernel on the dimensions 1, 2, which overlap those of [rbf]. *)
Definition periodic : Kernel :=
  {| ident := 3; name := Some "Periodic"; input_dim := 2;
     active_dims := [1; 2]; _subkernels := [] |}.

(** Another object with the name of [rbf], on the dimension 2. *)
Definition rbf_twin : Kernel :=
  {| ident := 4; name := Some "RBF"; input_dim := 1;
     active_dims := [2]; _subkernels := [] |}.

End Kernels.

(** * Properties of the trace graph *)

Local Open Scope list_scope.
Unset Implicit Arguments.

Section TraceFacts.

Context {Value : Type}.
Implicit Types (t : Trace Value) (site node : Site Value) (key : string).

Lemma contains_get_node t key :
  contains t key = true <-> exists site, get_node t key = Some site.
Proof.
  unfold contains, get_node. induction (nodes t) as [|[k s] l IH]; simpl.
  - split; [discriminate | intros [? ?]; discriminate].
  - destruct (String.eqb k key); simpl; [split; eauto | exact IH].
Qed.

Lemma contains_In t key :
  contains t key = true <-> In key (node_names t).
Proof.
  unfold contains, node_names. rewrite existsb_exists. split.
  - intros [[k s] [Hin Heq]]. apply String.eqb_eq in Heq. simpl in Heq.
    subst. apply (in_map fst) in Hin. exact Hin.
  - intros Hin. apply in_map_iff in Hin as [[k s] [Heq Hin]]. simpl in Heq.
    subst. exists (key, s). split; [exact Hin | apply String.eqb_refl].
Qed.

Lemma get_node_In t key site :
  get_node t key = Some site -> In (key, site) (nodes t).
Proof.
  unfold get_node. induction (nodes t) as [|[k s] l IH]; simpl; [discriminate|].
  destruct (String.eqb_spec k key) as [->|Hne].
  - intros [= ->]. now left.
  - intros H. right. now apply IH.
Qed.

Lemma In_get_node t key site :
  List.NoDup (node_names t) -> In (key, site) (nodes t) ->
  get_node t key = Some site.
Proof.
  unfold get_node, node_names.
  induction (nodes t) as [|[k s] l IH]; simpl; [intros _ []|].
  intros Hnd [Heq|Hin].
  - injection Heq as -> ->. now rewrite String.eqb_refl.
  - apply List.NoDup_cons_iff in Hnd as [Hk Hnd].
    destruct (String.eqb_spec k key) as [->|Hne].
    + exfalso. apply Hk. apply (in_map fst) in Hin. exact Hin.
    + now apply IH.
Qed.

Lemma add_node_ok key site t t' :
  add_node key site t = inr t' ->
  contains t key = false
  /\ nodes t' = (nodes t ++ [(key, site)])%list
  /\ edges t' = edges t
  /\ graph_type t' = graph_type t.
Proof.
  unfold add_node. destruct (contains t key); [discriminate|].
  intros [= <-]. simpl. auto.
Qed.

Lemma add_node_duplicate key site t :
  contains t key = true -> add_node key site t = inl (DuplicateSiteError key).
Proof. unfold add_node. now intros ->. Qed.

Lemma add_node_NoDup key site t t' :
  List.NoDup (node_names t) -> add_node key site t = inr t' ->
  List.NoDup (node_names t').
Proof.
  intros Hnd H. apply add_node_ok in H as (Hc & Hn & _ & _).
  unfold node_names in *. rewrite Hn, map_app. simpl.
  apply List.NoDup_app.
  - exact Hnd.
  - constructor; [intros [] | constructor].
  - intros x Hx [<-|[]]. apply contains_In in Hx. congruence.
Qed.

Lemma edge_eqb_eq (e1 e2 : string * string) :
  edge_eqb e1 e2 = true <-> e1 = e2.
Proof.
  destruct e1 as [a b], e2 as [c d]. unfold edge_eqb. simpl.
  rewrite andb_true_iff, !String.eqb_eq. split.
  - now intros [-> ->].
  - now intros [= -> ->].
Qed.

Lemma has_edge_In t u v : has_edge t u v = true <-> In (u, v) (edges t).
Proof.
  unfold has_edge. rewrite existsb_exists. split.
  - intros [e [Hin Heq]]. apply edge_eqb_eq in Heq. now subst.
  - intros Hin. exists (u, v). split; [exact Hin | now apply edge_eqb_eq].
Qed.

Lemma nodes_add_edge u v t : nodes (add_edge u v t) = nodes t.
Proof. unfold add_edge. now destruct (has_edge t u v). Qed.

Lemma graph_type_add_edge u v t : graph_type (add_edge u v t) = graph_type t.
Proof. unfold add_edge. now destruct (has_edge t u v). Qed.

Lemma In_edges_add_edge u v t e :
  In e (edges (add_edge u v t)) <-> In e (edges t) \/ e = (u, v).
Proof.
  unfold add_edge. destruct (has_edge t u v) eqn:Hh; simpl.
  - apply has_edge_In in Hh. split; [auto | intros [H| ->]; auto].
  - rewrite in_app_iff. simpl. intuition.
Qed.

Lemma add_edge_idempotent u v t :
  add_edge u v (add_edge u v t) = add_edge u v t.
Proof.
  assert (H : has_edge (add_edge u v t) u v = true).
  { apply has_edge_In, In_edges_add_edge. now right. }
  unfold add_edge at 1. now rewrite H.
Qed.

End TraceFacts.

(** * Properties of identify_dense_edges *)

Section DenseEdges.

Context {Value : Type}.
Variable site_is_subsample : Site Value -> bool.
Implicit Types (t : Trace Value) (node past N P : Site Value).
Implicit Types (key u v : string) (items : list (string * Site Value)).

(** The loop over the zipped stacks finds a frame pair exactly when the
    spec's independence test holds. *)
Lemma past_node_independent_true N P :
  past_node_independent (cond_indep_stack N) (cond_indep_stack P) = true
  <-> frames_differ_in_counter N P.
Proof.
  unfold frames_differ_in_counter.
  generalize (cond_indep_stack N) as qs, (cond_indep_stack P) as ts.
  induction qs as [|q qs IH]; intros ts; simpl.
  - split; [discriminate | intros (? & ? & [] & _)].
  - destruct ts as [|tg ts]; simpl.
    + split; [discriminate | intros (? & ? & [] & _)].
    + destruct (String.eqb_spec (frame_name q) (frame_name tg)) as [Hn|Hn];
        destruct (Z.eqb_spec (frame_counter q) (frame_counter tg)) as [Hc|Hc];
        simpl.
      * rewrite IH. split.
        -- intros (a & b & Hin & H). exists a, b. split; [now right | exact H].
        -- intros (a & b & [Heq|Hin] & Ha & Hb).
           ++ injection Heq as <- <-. contradiction.
           ++ exists a, b. auto.
      * split; [intros _ | reflexivity].
        exists q, tg. split; [now left | auto].
      * rewrite IH. split.
        -- intros (a & b & Hin & H). exists a, b. split; [now right | exact H].
        -- intros (a & b & [Heq|Hin] & Ha & Hb).
           ++ injection Heq as <- <-. contradiction.
           ++ exists a, b. auto.
      * rewrite IH. split.
        -- intros (a & b & Hin & H). exists a, b. split; [now right | exact H].
        -- intros (a & b & [Heq|Hin] & Ha & Hb).
           ++ injection Heq as <- <-. contradiction.
           ++ exists a, b. auto.
Qed.

Lemma nodes_inner_loop key node items t :
  nodes (inner_loop site_is_subsample key node items t) = nodes t.
Proof.
  revert t. induction items as [|[pn past] rest IH]; intros t; simpl; [easy|].
  destruct (site_is_subsample node); [apply IH|].
  destruct (String.eqb (type past) "sample"); [|apply IH].
  destruct (String.eqb pn key); [reflexivity|].
  rewrite IH.
  destruct (past_node_independent _ _); [reflexivity | apply nodes_add_edge].
Qed.

Lemma nodes_outer_loop items t :
  nodes (outer_loop site_is_subsample items t) = nodes t.
Proof.
  revert t. induction items as [|[k node] rest IH]; intros t; simpl; [easy|].
  destruct (site_is_subsample node); [apply IH|].
  destruct (String.eqb (type node) "sample"); [|apply IH].
  rewrite IH. apply nodes_inner_loop.
Qed.

Lemma nodes_identify_dense_edges t :
  nodes (identify_dense_edges site_is_subsample t) = nodes t.
Proof. apply nodes_outer_loop. Qed.

Lemma graph_type_inner_loop key node items t :
  graph_type (inner_loop site_is_subsample key node items t) = graph_type t.
Proof.
  revert t. induction items as [|[pn past] rest IH]; intros t; simpl; [easy|].
  destruct (site_is_subsample node); [apply IH|].
  destruct (String.eqb (type past) "sample"); [|apply IH].
  destruct (String.eqb pn key); [reflexivity|].
  rewrite IH.
  destruct (past_node_independent _ _);
    [reflexivity | apply graph_type_add_edge].
Qed.

Lemma graph_type_identify_dense_edges t :
  graph_type (identify_dense_edges site_is_subsample t) = graph_type t.
Proof.
  unfold identify_dense_edges. generalize (nodes t) as items. intros items.
  revert t. induction items as [|[k node] rest IH]; intros t; simpl; [easy|].
  destruct (site_is_subsample node); [apply IH|].
  destruct (String.eqb (type node) "sample"); [|apply IH].
  rewrite IH. apply graph_type_inner_loop.
Qed.

(** Edges are only ever added. *)
Lemma inner_loop_keeps key node items t e :
  In e (edges t) ->
  In e (edges (inner_loop site_is_subsample key node items t)).
Proof.
  revert t. induction items as [|[pn past] rest IH]; intros t He; simpl; [easy|].
  destruct (site_is_subsample node); [now apply IH|].
  destruct (String.eqb (type past) "sample"); [|now apply IH].
  destruct (String.eqb pn key); [exact He|].
  apply IH. destruct (past_node_independent _ _); [exact He|].
  apply In_edges_add_edge. now left.
Qed.

Lemma outer_loop_keeps items t e :
  In e (edges t) -> In e (edges (outer_loop site_is_subsample items t)).
Proof.
  revert t. induction items as [|[k node] rest IH]; intros t He; simpl; [easy|].
  destruct (site_is_subsample node); [now apply IH|].
  destruct (String.eqb (type node) "sample"); [|now apply IH].
  apply IH. now apply inner_loop_keeps.
Qed.

(** Where an edge of the inner loop comes from. *)
Lemma inner_loop_origin key node items t u v :
  In (u, v) (edges (inner_loop site_is_subsample key node items t)) ->
  In (u, v) (edges t)
  \/ (v = key /\ u <> key /\ site_is_subsample node = false
      /\ exists past, In (u, past) items /\ type past = "sample"
         /\ past_node_independent (cond_indep_stack node)
                                  (cond_indep_stack past) = false).
Proof.
  revert t. induction items as [|[pn past] rest IH]; intros t; simpl; [auto|].
  destruct (site_is_subsample node) eqn:Hsub.
  { intros H. apply IH in H as [H|(_ & _ & [=] & _)]. now left. }
  assert (Hrest : forall t',
    In (u, v) (edges (inner_loop site_is_subsample key node rest t')) ->
    In (u, v) (edges t')
    \/ (v = key /\ u <> key /\ false = false
        /\ exists past0, ((pn, past) = (u, past0) \/ In (u, past0) rest)
           /\ type past0 = "sample"
           /\ past_node_independent (cond_indep_stack node)
                                    (cond_indep_stack past0) = false)).
  { intros t' H. apply IH in H as [H|(Hv & Hu & _ & p & Hin & Hp)];
      [now left | right]. repeat split; auto. exists p. tauto. }
  destruct (String.eqb_spec (type past) "sample") as [Hty|Hty];
    [|apply Hrest].
  destruct (String.eqb_spec pn key) as [Hk|Hk]; [auto|].
  destruct (past_node_independent _ _) eqn:Hind; [apply Hrest|].
  intros H. apply Hrest in H as [H|H]; [|now right].
  apply In_edges_add_edge in H as [H|[= -> ->]]; [now left | right].
  repeat split; auto. exists past. auto.
Qed.

(** Where an edge of the whole pass comes from: its target is a [sample]
    node that is no subsample site, its source a [sample] node under another
    name, and the two are not judged independent. *)
Lemma outer_loop_origin items t u v :
  In (u, v) (edges (outer_loop site_is_subsample items t)) ->
  In (u, v) (edges t)
  \/ (u <> v
      /\ exists node past,
           In (v, node) items /\ In (u, past) (nodes t)
           /\ site_is_subsample node = false
           /\ type node = "sample" /\ type past = "sample"
           /\ past_node_independent (cond_indep_stack node)
                                    (cond_indep_stack past) = false).
Proof.
  revert t. induction items as [|[k node] rest IH]; intros t; simpl; [auto|].
  assert (Hrest :
    In (u, v) (edges (outer_loop site_is_subsample rest t)) ->
    In (u, v) (edges t)
    \/ (u <> v
        /\ exists node0 past,
             ((k, node) = (v, node0) \/ In (v, node0) rest)
             /\ In (u, past) (nodes t)
             /\ site_is_subsample node0 = false
             /\ type node0 = "sample" /\ type past = "sample"
             /\ past_node_independent (cond_indep_stack node0)
                                      (cond_indep_stack past) = false)).
  { intros H. apply IH in H as [H|(Hne & n & p & Hin & Hp)];
      [now left | right]. split; [exact Hne|]. exists n, p. tauto. }
  destruct (site_is_subsample node) eqn:Hsub; [exact Hrest|].
  destruct (String.eqb_spec (type node) "sample") as [Hty|Hty];
    [|exact Hrest].
  intros H. apply IH in H as [H|(Hne & n & p & Hin & Hp)].
  - apply inner_loop_origin in H as [H|(Hv & Hu & _ & p & Hin & Hp & Hind)];
      [now left | right]. subst v.
    split; [exact Hu|]. exists node, p. tauto.
  - right. split; [exact Hne|]. exists n, p.
    rewrite nodes_inner_loop in Hp. tauto.
Qed.

(** The inner loop reaches every [sample] node recorded before the node of
    the outer loop, and adds the edge unless the two are independent. *)
Lemma inner_loop_adds key node before pn past rest t :
  site_is_subsample node = false ->
  (forall k s, In (k, s) before -> k <> key) ->
  pn <> key ->
  type past = "sample" ->
  past_node_independent (cond_indep_stack node)
                        (cond_indep_stack past) = false ->
  In (pn, key)
     (edges (inner_loop site_is_subsample key node
               (before ++ (pn, past) :: rest) t)).
Proof.
  intros Hsub Hbefore Hne Hty Hind. revert t.
  induction before as [|[k s] before IH]; intros t; simpl; rewrite Hsub.
  - rewrite Hty. simpl. apply String.eqb_neq in Hne. rewrite Hne, Hind.
    apply inner_loop_keeps, In_edges_add_edge. now right.
  - assert (Hk : String.eqb k key = false).
    { apply String.eqb_neq. apply (Hbefore k s). now left. }
    assert (IH' : forall t', In (pn, key)
      (edges (inner_loop site_is_subsample key node
                (before ++ (pn, past) :: rest) t'))).
    { apply IH. intros k' s' H. apply (Hbefore k' s'). now right. }
    destruct (String.eqb (type s) "sample"); [rewrite Hk|]; apply IH'.
Qed.

Lemma outer_loop_adds items key node before pn past rest t :
  In (key, node) items ->
  nodes t = (before ++ (pn, past) :: rest)%list ->
  site_is_subsample node = false ->
  type node = "sample" ->
  (forall k s, In (k, s) before -> k <> key) ->
  pn <> key ->
  type past = "sample" ->
  past_node_independent (cond_indep_stack node)
                        (cond_indep_stack past) = false ->
  In (pn, key) (edges (outer_loop site_is_subsample items t)).
Proof.
  intros Hin Hnodes Hsub Hty Hbefore Hne Htyp Hind. revert t Hnodes.
  induction items as [|[k n] items IH]; intros t Hnodes; [destruct Hin|].
  simpl. destruct Hin as [[= -> ->]|Hin].
  - rewrite Hsub, Hty. simpl. apply outer_loop_keeps.
    rewrite Hnodes. now apply inner_loop_adds.
  - destruct (site_is_subsample n); [now apply IH|].
    destruct (String.eqb (type n) "sample"); [|now apply IH].
    apply IH; [exact Hin|]. now rewrite nodes_inner_loop.
Qed.

Lemma NoDup_app_disjoint (A : Type) (l1 l2 : list A) (a : A) :
  List.NoDup (l1 ++ l2) -> In a l1 -> ~ In a l2.
Proof.
  induction l1 as [|x l1 IH]; simpl; [intros _ []|].
  intros Hnd [->|Hin] H2; apply List.NoDup_cons_iff in Hnd as [Hx Hnd].
  - apply Hx, in_or_app. now right.
  - now apply (IH Hnd Hin).
Qed.

(** Two positions [i < j] of a dictionary split it around the earlier one:
    the keys before [i] and the key at [i] all differ from the key at [j]. *)
Lemma split_at_earlier t i j pn P nn N :
  List.NoDup (node_names t) ->
  nodes t !! i = Some (pn, P) -> nodes t !! j = Some (nn, N) -> (i < j)%nat ->
  exists before rest,
    nodes t = (before ++ (pn, P) :: rest)%list
    /\ (forall k s, In (k, s) before -> k <> nn)
    /\ pn <> nn.
Proof.
  intros Hnd Hi Hj Hlt.
  exists (take i (nodes t)), (drop (S i) (nodes t)).
  assert (Hsplit : (take i (nodes t) ++ (pn, P) :: drop (S i) (nodes t))%list
                   = nodes t) by now apply take_drop_middle.
  assert (Hin : In (nn, N) (drop (S i) (nodes t))).
  { apply list_elem_of_In, list_elem_of_lookup. exists (j - S i)%nat.
    rewrite lookup_drop. replace (S i + (j - S i))%nat with j by lia.
    exact Hj. }
  unfold node_names in Hnd. rewrite <- Hsplit, map_app in Hnd. simpl in Hnd.
  split; [now rewrite Hsplit|]. split.
  - intros k s Hk ->.
    apply (NoDup_app_disjoint _ _ _ nn Hnd).
    + apply (in_map fst) in Hk. exact Hk.
    + right. apply (in_map fst) in Hin. exact Hin.
  - intros ->. apply List.NoDup_remove_2 in Hnd. apply Hnd, in_or_app.
    right. apply (in_map fst) in Hin. exact Hin.
Qed.

(** C2: in a trace without edges whose node names are pairwise distinct (it
    is a dictionary), for two [sample] nodes [P] and [N] that are no
    subsample sites, [P] recorded strictly before [N], the pass adds the
    edge from [P] to [N] exactly when no pair of frames at the same position
    of the two stacks has the same name and different counters. *)
Theorem dense_edge_iff_not_independent t i j pn P nn N :
  List.NoDup (node_names t) ->
  edges t = [] ->
  nodes t !! i = Some (pn, P) ->
  nodes t !! j = Some (nn, N) ->
  (i < j)%nat ->
  type P = "sample" -> type N = "sample" ->
  site_is_subsample P = false -> site_is_subsample N = false ->
  In (pn, nn) (edges (identify_dense_edges site_is_subsample t))
  <-> ~ frames_differ_in_counter N P.
Proof.
  intros Hnd Hedges Hi Hj Hlt HtyP HtyN HsubP HsubN.
  assert (HinP : In (pn, P) (nodes t)).
  { apply list_elem_of_In, list_elem_of_lookup. eauto. }
  assert (HinN : In (nn, N) (nodes t)).
  { apply list_elem_of_In, list_elem_of_lookup. eauto. }
  rewrite <- past_node_independent_true. unfold identify_dense_edges. split.
  - intros H. apply outer_loop_origin in H as [H|(_ & n & p & Hn & Hp & H)].
    + rewrite Hedges in H. destruct H.
    + apply (In_get_node _ _ _ Hnd) in Hn, Hp, HinP, HinN.
      assert (n = N) by congruence. assert (p = P) by congruence. subst n p.
      destruct H as (_ & _ & _ & H). now rewrite H.
  - intros H. apply not_true_is_false in H.
    destruct (split_at_earlier _ _ _ _ _ _ _ Hnd Hi Hj Hlt)
      as (before & rest & Hsplit & Hbefore & Hne).
    eapply outer_loop_adds with (node := N) (past := P) (before := before)
      (rest := rest); eauto.
Qed.

(** The target of an edge the pass adds is never a subsample site. *)
Lemma dense_edge_target_not_subsample t u v :
  List.NoDup (node_names t) ->
  In (u, v) (edges (identify_dense_edges site_is_subsample t)) ->
  ~ In (u, v) (edges t) ->
  exists N, get_node t v = Some N /\ site_is_subsample N = false.
Proof.
  intros Hnd H Hold. unfold identify_dense_edges in H.
  apply outer_loop_origin in H as [H|(_ & n & p & Hn & _ & Hsub & _)];
    [contradiction|].
  exists n. split; [now apply In_get_node | exact Hsub].
Qed.

(** The source of an edge is no subsample site either, as long as the
    classifier never holds of a node whose type is [sample]. *)
Lemma dense_edge_source_not_subsample t u v :
  (forall s, site_is_subsample s = true -> type s <> "sample") ->
  List.NoDup (node_names t) ->
  In (u, v) (edges (identify_dense_edges site_is_subsample t)) ->
  ~ In (u, v) (edges t) ->
  exists P, get_node t u = Some P /\ site_is_subsample P = false.
Proof.
  intros Hmark Hnd H Hold. unfold identify_dense_edges in H.
  apply outer_loop_origin in H as [H|(_ & n & p & _ & Hp & _ & _ & Hty & _)];
    [contradiction|].
  exists p. split; [now apply In_get_node|].
  destruct (site_is_subsample p) eqn:Hsub; [|reflexivity].
  now apply Hmark in Hsub.
Qed.

End DenseEdges.

(** The plate example: no edge between [x@0] and [x@1], and [y] gets an edge
    from each of them. *)
Example plate_trace_edges :
  edges (identify_dense_edges no_subsample plate_trace)
  = [("x@0", "y"); ("x@1", "y")].
Proof. reflexivity. Qed.

Lemma plate_trace_NoDup : List.NoDup (node_names plate_trace).
Proof.
  unfold node_names. simpl.
  repeat (constructor; [simpl; intuition discriminate|]). constructor.
Qed.

Lemma dense_edge_iff_not_independent_witness :
  In ("x@0", "y") (edges (identify_dense_edges no_subsample plate_trace))
  <-> ~ frames_differ_in_counter (sample_site "y" [])
                                 (sample_site "x@0" [mkFrame "plate" 0]).
Proof.
  apply (dense_edge_iff_not_independent no_subsample plate_trace
           0%nat 2%nat "x@0" _ "y" _).
  - exact plate_trace_NoDup.
  - reflexivity.
  - reflexivity.
  - reflexivity.
  - lia.
  - reflexivity.
  - reflexivity.
  - reflexivity.
  - reflexivity.
Defined.

(** C1: a node the classifier holds of, of type [sample] as subsample sites
    are, recorded before an ordinary [sample] site: the pass adds an edge
    whose source is that node, because the test in the inner loop reads the
    node of the outer loop.  Between two ordinary sites such a node does not
    block their edge, but it originates one too. *)
Theorem subsample_site_originates_edge :
  pseudo_site ["ind"] (sample_site "ind" []) = true
  /\ edges (identify_dense_edges (pseudo_site ["ind"]) pseudo_trace)
     = [("ind", "x")]
  /\ edges (identify_dense_edges (pseudo_site ["ind"]) interposed_trace)
     = [("a", "b"); ("ind", "b")].
Proof. repeat split. Qed.

(** * The handler on the heap and on the live trace *)

Section Handler.

Context {Value : Type}.
Variable site_is_subsample : Site Value -> bool.
Variable resolve : Site Value -> Exn + Value.
Implicit Types (s : State Value) (t : Trace Value) (msg : Site Value).
Implicit Types (c : Comp Value) (l : nat).

Lemma set_heap_same s : set_heap (heap s) s = s.
Proof. now destruct s. Qed.

Lemma set_heap_set_heap h h' s : set_heap h (set_heap h' s) = set_heap h s.
Proof. reflexivity. Qed.

Lemma site_copy msg :
  {| name := name msg; type := type msg; value := value msg;
     args := args msg; kwargs := kwargs msg;
     is_observed := is_observed msg;
     cond_indep_stack := cond_indep_stack msg |} = msg.
Proof. now destruct msg. Qed.

Lemma lookup_snoc_last (A : Type) (h : list A) (x : A) :
  (h ++ [x]) !! length h = Some x.
Proof. now apply list_lookup_middle. Qed.

Lemma insert_snoc_last (A : Type) (h : list A) (x y : A) :
  <[length h := y]> (h ++ [x]) = (h ++ [y])%list.
Proof.
  replace (length h) with (length h + 0)%nat by lia.
  now rewrite insert_app_r.
Qed.

Lemma get_node_contains t key :
  contains t key = true -> get_node t key = None -> False.
Proof.
  intros Hc Hn. apply contains_get_node in Hc as [site Hs]. congruence.
Qed.

(** The [process] hook reads the live trace and leaves the world as it
    is. *)
Lemma process_message_spec s l t msg :
  live_loc s = Some l -> heap s !! l = Some t ->
  _process_message msg s = (s, process_check t msg).
Proof.
  unfold live_loc. intros Hl Ht.
  unfold _process_message, process_check, _pyro_sample, _pyro_param.
  unfold bind, get_msngr_trace, read, getitem, ret, raise.
  destruct (String.eqb (type msg) "sample").
  - rewrite Hl, Ht. destruct (contains t (name msg)) eqn:Hc; [|reflexivity].
    destruct (get_node t (name msg)) as [site|]; [|reflexivity].
    destruct (String.eqb (type site) "param"); [reflexivity|].
    now destruct (String.eqb (type site) "sample").
  - destruct (String.eqb (type msg) "param"); [|reflexivity].
    rewrite Hl, Ht. destruct (contains t (name msg)) eqn:Hc; [|reflexivity].
    destruct (get_node t (name msg)) as [site|]; [|reflexivity].
    now destruct (String.eqb (type site) "sample").
Qed.

(** [trace.add_node] on the live trace. *)
Lemma Trace_add_node_spec s l t key msg :
  heap s !! l = Some t ->
  Trace_add_node l key msg s =
  match add_node key msg t with
  | inl e => (s, inl e)
  | inr t' => (set_heap (<[l := t']> (heap s)) s, inr tt)
  end.
Proof.
  intros Ht. unfold Trace_add_node, bind, read, lift, write. rewrite Ht.
  now destruct (add_node key msg t).
Qed.

Lemma postprocess_message_spec s l t msg :
  live_loc s = Some l -> heap s !! l = Some t ->
  _postprocess_message msg s =
  match add_node (name msg) msg t with
  | inl e => (s, inl e)
  | inr t' => (set_heap (<[l := t']> (heap s)) s, inr tt)
  end.
Proof.
  unfold live_loc. intros Hl Ht.
  unfold _postprocess_message, bind, get_msngr_trace. rewrite Hl, site_copy.
  now apply Trace_add_node_spec.
Qed.

(** One effect: the world changes at the live trace only, as [trace_apply]
    says. *)
Lemma installed_set_heap h s : installed (set_heap h s) = installed s.
Proof. reflexivity. Qed.

Lemma installed_top s stk :
  PYRO_STACK s = stk ++ [msngr_id (msngr (self s))] -> installed s = true.
Proof.
  intros H. unfold installed. rewrite H, existsb_app. simpl.
  now rewrite Nat.eqb_refl, orb_true_r.
Qed.

Lemma installed_enter s : installed (fst (Messenger_enter s)) = true.
Proof. now apply (installed_top _ (PYRO_STACK s)). Qed.

(** An effect while the handler is not installed: its value is settled and
    the world is as before. *)
Lemma apply_stack_not_installed s msg :
  installed s = false ->
  apply_stack resolve msg s = (s, resolve msg).
Proof.
  intros Hi. unfold apply_stack, bind, lift, ret. rewrite Hi.
  now destruct (resolve msg).
Qed.

Lemma apply_stack_spec s l t msg :
  installed s = true ->
  live_loc s = Some l -> heap s !! l = Some t ->
  apply_stack resolve msg s =
  (set_heap (<[l := fst (trace_apply resolve msg t)]> (heap s)) s,
   snd (trace_apply resolve msg t)).
Proof.
  intros Hi Hl Ht. unfold apply_stack. rewrite Hi.
  unfold trace_apply, bind at 1.
  rewrite (process_message_spec s l t msg Hl Ht).
  destruct (process_check t msg) as [e|[]]; simpl.
  { now rewrite (list_insert_id _ _ _ Ht), set_heap_same. }
  unfold bind, lift. destruct (resolve msg) as [e|v]; simpl.
  { now rewrite (list_insert_id _ _ _ Ht), set_heap_same. }
  rewrite (postprocess_message_spec s l t (settled msg v) Hl Ht).
  change (name (settled msg v)) with (name msg).
  destruct (add_node (name msg) (settled msg v) t) as [e|t']; simpl.
  - now rewrite (list_insert_id _ _ _ Ht), set_heap_same.
  - reflexivity.
Qed.

(** A whole computation: the world changes at the live trace only, as
    [trace_run] says. *)
Lemma run_spec c s l t :
  installed s = true ->
  live_loc s = Some l -> heap s !! l = Some t ->
  run resolve c s =
  (set_heap (<[l := fst (trace_run resolve c t)]> (heap s)) s,
   snd (trace_run resolve c t)).
Proof.
  revert s t. induction c as [v|e|msg k IH]; intros s t Hi Hl Ht; simpl.
  - unfold ret. now rewrite (list_insert_id _ _ _ Ht), set_heap_same.
  - unfold raise. now rewrite (list_insert_id _ _ _ Ht), set_heap_same.
  - unfold bind. rewrite (apply_stack_spec s l t msg Hi Hl Ht).
    destruct (trace_apply resolve msg t) as [t' [e|v]]; simpl; [reflexivity|].
    rewrite (IH v (set_heap (<[l := t']> (heap s)) s) t').
    + simpl. now rewrite list_insert_insert_eq.
    + exact Hi.
    + exact Hl.
    + simpl. apply list_lookup_insert_eq. now apply lookup_lt_Some in Ht.
Qed.

Lemma TraceMessenger_exit_spec s l t :
  live_loc s = Some l -> heap s !! l = Some t ->
  last (PYRO_STACK s) = Some (msngr_id (msngr (self s))) ->
  TraceMessenger_exit site_is_subsample s =
  (set_stack (removelast (PYRO_STACK s))
     (set_heap (<[l := exit_trace site_is_subsample
                         (msngr_graph_type (msngr (self s))) t]> (heap s)) s),
   inr tt).
Proof.
  unfold live_loc. intros Hl Ht Hlast.
  unfold TraceMessenger_exit, exit_trace, bind, get_graph_type.
  destruct (String.eqb (msngr_graph_type (msngr (self s))) "dense").
  - unfold get_msngr_trace, read, write, Messenger_exit. rewrite Hl, Ht.
    simpl. rewrite Hlast, Nat.eqb_refl. reflexivity.
  - unfold ret, Messenger_exit. rewrite Hlast, Nat.eqb_refl.
    now rewrite (list_insert_id _ _ _ Ht), set_heap_same.
Qed.

(** [Poutine.__call__] with a live trace: the stack is as before, the live
    trace is what the computation and the exit hook make of it, and the
    outcome is the computation's. *)
Lemma Poutine_call_spec s l t a kw :
  live_loc s = Some l -> heap s !! l = Some t ->
  Poutine_call site_is_subsample resolve a kw s =
  (set_heap
     (<[l := exit_trace site_is_subsample (msngr_graph_type (msngr (self s)))
               (fst (trace_run resolve (fn (self s) a kw) t))]> (heap s)) s,
   snd (trace_run resolve (fn (self s) a kw) t)).
Proof.
  intros Hl Ht. unfold Poutine_call, with_, Messenger_enter.
  set (s1 := set_stack (PYRO_STACK s ++ [msngr_id (msngr (self s))]) s).
  change (self s1) with (self s).
  rewrite (run_spec (fn (self s) a kw) s1 l t (installed_enter s) Hl Ht).
  set (t1 := fst (trace_run resolve (fn (self s) a kw) t)).
  rewrite (TraceMessenger_exit_spec _ l t1).
  - simpl. rewrite removelast_last, list_insert_insert_eq.
    destruct s; reflexivity.
  - exact Hl.
  - simpl. apply list_lookup_insert_eq. now apply lookup_lt_Some in Ht.
  - simpl. apply last_snoc.
Qed.

(** The statements before the call of [Poutine.__call__]: a new [Trace]
    object holding the [_INPUT] node, to which both attributes refer. *)
Lemma TracePoutine_setup_spec s a kw :
  TracePoutine_setup a kw s =
  (world (PYRO_STACK s)
         (heap s ++ [input_trace (msngr_graph_type (msngr (self s)))
                                 (input_site a kw)])
         (bound_to (length (heap s)) (self s)),
   inr tt).
Proof.
  unfold TracePoutine_setup, bind, get_graph_type, alloc, set_msngr_trace,
    get_msngr_trace, set_poutine_trace. simpl.
  erewrite Trace_add_node_spec by (simpl; apply lookup_snoc_last).
  simpl. now rewrite insert_snoc_last.
Qed.

(** [TracePoutine.__call__] is its first statements, then
    [Poutine.__call__], then the recording of the [_RETURN] node. *)
Lemma TracePoutine_call_setup s a kw :
  TracePoutine_call site_is_subsample resolve a kw s =
  match TracePoutine_setup a kw s with
  | (s0, inl e) => (s0, inl e)
  | (s0, inr _) =>
      match Poutine_call site_is_subsample resolve a kw s0 with
      | (s1, inl e) => (s1, inl e)
      | (s1, inr r) =>
          match get_msngr_trace s1 with
          | (s2, inl e) => (s2, inl e)
          | (s2, inr l) =>
              match Trace_add_node l "_RETURN" (return_site r) s2 with
              | (s3, inl e) => (s3, inl e)
              | (s3, inr _) => (s3, inr r)
              end
          end
      end
  end.
Proof.
  unfold TracePoutine_call, TracePoutine_setup, bind, get_graph_type, alloc,
    set_msngr_trace, get_msngr_trace, set_poutine_trace, ret. simpl.
  destruct (Trace_add_node _ _ _ _) as [s0 [e|[]]]; reflexivity.
Qed.

(** [TracePoutine.__call__]: the stack is as before, one [Trace] object is
    allocated, both attributes refer to it, and its contents and the outcome
    are those of [call_trace]. *)
Lemma TracePoutine_call_spec s a kw :
  TracePoutine_call site_is_subsample resolve a kw s =
  (world (PYRO_STACK s)
         (heap s ++ [fst (call_trace site_is_subsample resolve
                            (msngr_graph_type (msngr (self s)))
                            (fn (self s) a kw) (input_site a kw))])
         (bound_to (length (heap s)) (self s)),
   snd (call_trace site_is_subsample resolve
          (msngr_graph_type (msngr (self s)))
          (fn (self s) a kw) (input_site a kw))).
Proof.
  rewrite TracePoutine_call_setup, TracePoutine_setup_spec.
  set (gt := msngr_graph_type (msngr (self s))).
  set (t0 := input_trace gt (input_site a kw)).
  set (s0 := world _ _ _).
  rewrite (Poutine_call_spec s0 (length (heap s)) t0);
    [|reflexivity|apply lookup_snoc_last].
  unfold call_trace. fold t0. simpl.
  destruct (trace_run resolve (fn (self s) a kw) t0) as [t1 [e|v]]; simpl.
  - now rewrite insert_snoc_last.
  - fold gt. rewrite insert_snoc_last. unfold get_msngr_trace. simpl.
    erewrite Trace_add_node_spec by (simpl; apply lookup_snoc_last).
    destruct (add_node "_RETURN" (return_site v) _) as [e|t3]; simpl.
    + reflexivity.
    + now rewrite insert_snoc_last.
Qed.

(** ** Invariants of the live trace *)

(** Whatever [add_node] preserves, one effect preserves. *)
Lemma trace_apply_invariant (I : Trace Value -> Prop) :
  (forall key site t t', I t -> add_node key site t = inr t' -> I t') ->
  forall msg t, I t -> I (fst (trace_apply resolve msg t)).
Proof.
  intros Hadd msg t Ht. unfold trace_apply.
  destruct (process_check t msg) as [e|[]]; [exact Ht|].
  destruct (resolve msg) as [e|v]; [exact Ht|].
  destruct (add_node (name msg) (settled msg v) t) as [e|t'] eqn:Ha;
    [exact Ht|].
  simpl. now apply (Hadd _ _ _ _ Ht Ha).
Qed.

(** Whatever [add_node] preserves, a computation preserves. *)
Lemma trace_run_invariant (I : Trace Value -> Prop) :
  (forall key site t t', I t -> add_node key site t = inr t' -> I t') ->
  forall c t, I t -> I (fst (trace_run resolve c t)).
Proof.
  intros Hadd c. induction c as [v|e|msg k IH]; intros t Ht; simpl;
    [exact Ht | exact Ht |].
  pose proof (trace_apply_invariant I Hadd msg t Ht) as Hstep.
  destruct (trace_apply resolve msg t) as [t' [e|v]]; simpl in *;
    [exact Hstep|].
  now apply IH.
Qed.

(** Whatever [add_node] and the exit hook preserve, a call establishes as
    soon as it holds of the trace the computation starts with. *)
Lemma call_trace_invariant (I : Trace Value -> Prop) gt c input :
  (forall key site t t', I t -> add_node key site t = inr t' -> I t') ->
  (forall t, I t -> I (exit_trace site_is_subsample gt t)) ->
  I (input_trace gt input) ->
  I (fst (call_trace site_is_subsample resolve gt c input)).
Proof.
  intros Hadd Hexit H0. unfold call_trace.
  pose proof (trace_run_invariant I Hadd c _ H0) as H1.
  destruct (trace_run resolve c (input_trace gt input)) as [t1 [e|v]];
    simpl in *.
  - now apply Hexit.
  - destruct (add_node "_RETURN" (return_site v) _) as [e|t3] eqn:Ha; simpl.
    + now apply Hexit.
    + apply (Hadd _ _ _ _ (Hexit _ H1) Ha).
Qed.

Lemma live_trace_after_call s a kw :
  live_trace (fst (TracePoutine_call site_is_subsample resolve a kw s))
  = Some (fst (call_trace site_is_subsample resolve
                 (msngr_graph_type (msngr (self s)))
                 (fn (self s) a kw) (input_site a kw))).
Proof.
  rewrite TracePoutine_call_spec. unfold live_trace, live_loc. simpl.
  apply lookup_snoc_last.
Qed.

(** An effect changes neither the stack of handlers nor the poutine. *)
Lemma keeps_bind (A B : Type) (m : M Value A) (f : A -> M Value B) :
  keeps_poutine m -> (forall a, keeps_poutine (f a)) ->
  keeps_poutine (bind m f).
Proof.
  intros Hm Hf s s' r. unfold bind.
  destruct (m s) as [s1 [e|a]] eqn:Hms.
  - intros [= <- _]. now apply (Hm s s1 (inl e)).
  - intros H. apply Hf in H as [H1 H2]. apply Hm in Hms as [H3 H4].
    split; congruence.
Qed.

Lemma keeps_pure (A : Type) (m : M Value A) :
  (forall s, fst (m s) = s) -> keeps_poutine m.
Proof.
  intros Hm s s' r H. apply (f_equal fst) in H. rewrite Hm in H. simpl in H.
  now subst s'.
Qed.

Lemma keeps_write l t : keeps_poutine (write (Value := Value) l t).
Proof. intros s s' r [= <- _]. split; reflexivity. Qed.

Lemma keeps_read l : keeps_poutine (read (Value := Value) l).
Proof.
  apply keeps_pure. intros s. unfold read. now destruct (heap s !! l).
Qed.

Lemma keeps_get_msngr_trace : keeps_poutine (get_msngr_trace (Value := Value)).
Proof.
  apply keeps_pure. intros s. unfold get_msngr_trace.
  now destruct (msngr_trace (msngr (self s))).
Qed.

Lemma keeps_lift (A : Type) (r : Exn + A) :
  keeps_poutine (lift (Value := Value) r).
Proof. now apply keeps_pure. Qed.

Lemma keeps_getitem (A : Type) key (o : option A) :
  keeps_poutine (getitem (Value := Value) key o).
Proof. apply keeps_pure. intros s. now destruct o. Qed.

Lemma keeps_ret (A : Type) (a : A) : keeps_poutine (ret (Value := Value) a).
Proof. now apply keeps_pure. Qed.

Lemma keeps_raise (A : Type) (e : Exn) :
  keeps_poutine (raise (Value := Value) (A := A) e).
Proof. now apply keeps_pure. Qed.

Lemma keeps_Trace_add_node l key site :
  keeps_poutine (Trace_add_node (Value := Value) l key site).
Proof.
  unfold Trace_add_node.
  apply keeps_bind; [apply keeps_read | intros t].
  apply keeps_bind; [apply keeps_lift | intros t'; apply keeps_write].
Qed.

Lemma keeps_process_message msg : keeps_poutine (_process_message msg).
Proof.
  unfold _process_message, _pyro_sample, _pyro_param.
  destruct (String.eqb (type msg) "sample");
    [|destruct (String.eqb (type msg) "param"); [|apply keeps_ret]];
    (apply keeps_bind; [apply keeps_get_msngr_trace | intros l]);
    (apply keeps_bind; [apply keeps_read | intros t]);
    (destruct (contains t (name msg)); [|apply keeps_ret]);
    (apply keeps_bind; [apply keeps_getitem | intros site]).
  - destruct (String.eqb (type site) "param"); [apply keeps_raise|].
    destruct (String.eqb (type site) "sample");
      [apply keeps_raise | apply keeps_ret].
  - destruct (String.eqb (type site) "sample");
      [apply keeps_raise | apply keeps_ret].
Qed.

Lemma keeps_postprocess_message msg : keeps_poutine (_postprocess_message msg).
Proof.
  unfold _postprocess_message.
  apply keeps_bind; [apply keeps_get_msngr_trace | intros l].
  apply keeps_Trace_add_node.
Qed.

Lemma apply_stack_frame s msg s' r :
  apply_stack resolve msg s = (s', r) ->
  PYRO_STACK s' = PYRO_STACK s /\ self s' = self s.
Proof.
  unfold apply_stack. destruct (installed s).
  - revert s s' r.
    change (keeps_poutine
      (bind (_process_message msg) (fun _ =>
       bind (lift (resolve msg)) (fun v =>
       bind (_postprocess_message (settled msg v)) (fun _ => ret v))))).
    apply keeps_bind; [apply keeps_process_message | intros _].
    apply keeps_bind; [apply keeps_lift | intros v].
    apply keeps_bind; [apply keeps_postprocess_message | intros _].
    apply keeps_ret.
  - revert s s' r.
    change (keeps_poutine
      (bind (lift (resolve msg)) (fun v => ret (Value := Value) v))).
    apply keeps_bind; [apply keeps_lift | intros v; apply keeps_ret].
Qed.

Lemma reaches_installed c s msg s' :
  reaches resolve c s msg s' -> installed s' = installed s.
Proof.
  induction 1 as [msg k s|msg0 k0 s s1 v msg s' H0 Hr IH]; [reflexivity|].
  apply apply_stack_frame in H0 as [Hstk Hself]. rewrite IH.
  unfold installed. now rewrite Hstk, Hself.
Qed.

(** An effect the computation reaches and that fails makes the computation
    fail with the same exception. *)
Lemma run_reaches c s msg s' s'' e :
  reaches resolve c s msg s' ->
  apply_stack resolve msg s' = (s'', inl e) ->
  run resolve c s = (s'', inl e).
Proof.
  intros Hr Hfail. induction Hr as [msg k s|msg0 k0 s s1 v msg s' H0 Hr IH];
    simpl; unfold bind.
  - now rewrite Hfail.
  - rewrite H0. now apply IH.
Qed.

(** A computation that fails with the handler installed makes the call
    fail with the same exception. *)
Lemma call_raises s a kw s0 s1 s2 e :
  TracePoutine_setup a kw s = (s0, inr tt) ->
  Messenger_enter s0 = (s1, inr tt) ->
  run resolve (fn (self s) a kw) s1 = (s2, inl e) ->
  exists s', TracePoutine_call site_is_subsample resolve a kw s = (s', inl e).
Proof.
  rewrite TracePoutine_setup_spec. intros [= <-] [= <-].
  set (t0 := input_trace (msngr_graph_type (msngr (self s))) (input_site a kw)).
  rewrite (run_spec _ _ (length (heap s)) t0);
    [|now apply (installed_top _ (PYRO_STACK s))|reflexivity
     |apply lookup_snoc_last].
  intros [= _ Hout]. rewrite TracePoutine_call_spec. unfold call_trace.
  fold t0. destruct (trace_run resolve (fn (self s) a kw) t0) as [t1 r].
  simpl in Hout. subst r. simpl. eauto.
Qed.

(** ** Duplicate sites *)

Lemma process_check_conflict t msg site :
  get_node t (name msg) = Some site ->
  (type msg = "sample" /\ (type site = "param" \/ type site = "sample"))
  \/ (type msg = "param" /\ type site = "sample") ->
  exists m, process_check t msg = inl (RuntimeError m).
Proof.
  intros Hsite Hcase. unfold process_check.
  assert (Hc : contains t (name msg) = true).
  { apply contains_get_node. eauto. }
  rewrite Hc, Hsite.
  destruct Hcase as [[-> [-> | ->]] | [-> ->]]; simpl; eauto.
Qed.

Lemma apply_stack_process_fails s l t msg e :
  installed s = true ->
  live_loc s = Some l -> heap s !! l = Some t ->
  process_check t msg = inl e ->
  apply_stack resolve msg s = (s, inl e).
Proof.
  intros Hi Hl Ht He. rewrite (apply_stack_spec s l t msg Hi Hl Ht).
  unfold trace_apply. rewrite He. simpl.
  now rewrite (list_insert_id _ _ _ Ht), set_heap_same.
Qed.

(** C3: when the name of an effect is already in the live trace, a [sample]
    effect on a node of type [param] or [sample], and a [param] effect on a
    node of type [sample], make the [process] hook raise a [RuntimeError];
    the dispatch of the effect, the handler being installed, raises it in
    turn, and so does the call of the poutine whose computation reaches that
    effect. *)
Theorem duplicate_site_raises s l t msg site :
  live_loc s = Some l ->
  heap s !! l = Some t ->
  get_node t (name msg) = Some site ->
  (type msg = "sample" /\ (type site = "param" \/ type site = "sample"))
  \/ (type msg = "param" /\ type site = "sample") ->
  exists m,
    _process_message msg s = (s, inl (RuntimeError m))
    /\ (installed s = true ->
        apply_stack resolve msg s = (s, inl (RuntimeError m)))
    /\ forall s_pre a kw s0 s1,
         TracePoutine_setup a kw s_pre = (s0, inr tt) ->
         Messenger_enter s0 = (s1, inr tt) ->
         reaches resolve (fn (self s_pre) a kw) s1 msg s ->
         exists s',
           TracePoutine_call site_is_subsample resolve a kw s_pre
           = (s', inl (RuntimeError m)).
Proof.
  intros Hl Ht Hsite Hcase.
  destruct (process_check_conflict t msg site Hsite Hcase) as [m Hm].
  exists m. split; [|split].
  - now rewrite (process_message_spec s l t msg Hl Ht), Hm.
  - intros Hi. now apply (apply_stack_process_fails s l t).
  - intros s_pre a kw s0 s1 Hsetup Henter Hreach.
    apply (call_raises s_pre a kw s0 s1 s (RuntimeError m) Hsetup Henter).
    apply (run_reaches _ _ msg s); [exact Hreach|].
    apply (apply_stack_process_fails s l t); try assumption.
    rewrite (reaches_installed _ _ _ _ Hreach).
    injection Henter as <-. apply installed_enter.
Qed.

(** C4: a [param] effect at a name the live trace holds as a [param] node
    passes the [process] hook, and fails when the node is written:
    [add_node] rejects the name, the dispatch, the handler being installed,
    raises, the world is as it was before the effect, and the call of the
    poutine whose computation reaches the effect raises too.  The names of
    the trace a call builds are pairwise distinct. *)
Theorem second_param_fails_loudly s l t msg site :
  live_loc s = Some l ->
  heap s !! l = Some t ->
  type msg = "param" ->
  get_node t (name msg) = Some site ->
  type site = "param" ->
  _process_message msg s = (s, inr tt)
  /\ (exists e,
        (installed s = true -> apply_stack resolve msg s = (s, inl e))
        /\ (forall v, resolve msg = inr v ->
                      e = DuplicateSiteError (name msg))
        /\ forall s_pre a kw s0 s1,
             TracePoutine_setup a kw s_pre = (s0, inr tt) ->
             Messenger_enter s0 = (s1, inr tt) ->
             reaches resolve (fn (self s_pre) a kw) s1 msg s ->
             exists s',
               TracePoutine_call site_is_subsample resolve a kw s_pre
               = (s', inl e))
  /\ forall s_pre a kw,
       exists t',
         live_trace
           (fst (TracePoutine_call site_is_subsample resolve a kw s_pre))
         = Some t'
         /\ List.NoDup (node_names t').
Proof.
  intros Hl Ht Hty Hsite Htys.
  assert (Hc : contains t (name msg) = true).
  { apply contains_get_node. eauto. }
  assert (Hcheck : process_check t msg = inr tt).
  { unfold process_check. rewrite Hty, Hc, Hsite, Htys. reflexivity. }
  assert (Hstep : exists e,
    (installed s = true -> apply_stack resolve msg s = (s, inl e))
    /\ (forall v, resolve msg = inr v -> e = DuplicateSiteError (name msg))).
  { assert (Hspec : installed s = true ->
      apply_stack resolve msg s
      = (set_heap (<[l := fst (trace_apply resolve msg t)]> (heap s)) s,
         snd (trace_apply resolve msg t)))
      by (intros Hi; now apply apply_stack_spec).
    unfold trace_apply in Hspec. rewrite Hcheck in Hspec.
    destruct (resolve msg) as [e|v]; simpl in Hspec.
    - exists e. rewrite (list_insert_id _ _ _ Ht), set_heap_same in Hspec.
      split; [exact Hspec | discriminate].
    - rewrite (add_node_duplicate _ (settled msg v) t Hc) in Hspec.
      simpl in Hspec. exists (DuplicateSiteError (name msg)).
      rewrite (list_insert_id _ _ _ Ht), set_heap_same in Hspec.
      split; [exact Hspec | intros _ _; reflexivity]. }
  split; [|split].
  - now rewrite (process_message_spec s l t msg Hl Ht), Hcheck.
  - destruct Hstep as (e & Hstep & He). exists e.
    split; [exact Hstep|]. split; [exact He|].
    intros s_pre a kw s0 s1 Hsetup Henter Hreach.
    apply (call_raises s_pre a kw s0 s1 s e Hsetup Henter).
    apply (run_reaches _ _ msg s); [exact Hreach|]. apply Hstep.
    rewrite (reaches_installed _ _ _ _ Hreach).
    injection Henter as <-. apply installed_enter.
  - intros s_pre a kw. eexists. split; [apply live_trace_after_call|].
    apply (call_trace_invariant (fun t' => List.NoDup (node_names t'))).
    + intros key st t1 t2 H1 H2. now apply (add_node_NoDup key st t1).
    + intros t1 H1. unfold exit_trace, node_names.
      destruct (String.eqb _ "dense"); [|exact H1].
      now rewrite nodes_identify_dense_edges.
    + unfold node_names. simpl. constructor; [intros []|constructor].
Qed.

(** ** The nodes and edges of the trace a call builds *)

Lemma call_trace_nodes gt c input :
  let out := call_trace site_is_subsample resolve gt c input in
  match snd out with
  | inr v =>
      exists middle,
        nodes (fst out)
        = ("_INPUT", input) :: middle ++ [("_RETURN", return_site v)]
  | inl _ => exists rest, nodes (fst out) = ("_INPUT", input) :: rest
  end.
Proof.
  unfold call_trace.
  pose proof (trace_run_invariant
                (fun t => exists rest, nodes t = ("_INPUT", input) :: rest))
    as Hrun.
  specialize (Hrun
    (fun key site t t' '(ex_intro _ rest Hn) Ha =>
       ex_intro _ (rest ++ [(key, site)])
         (eq_trans (proj1 (proj2 (add_node_ok key site t t' Ha)))
                   (f_equal (fun x => x ++ [(key, site)]) Hn)))
    c (input_trace gt input) (ex_intro _ [] eq_refl)).
  destruct (trace_run resolve c (input_trace gt input)) as [t1 [e|v]];
    simpl in *; destruct Hrun as [rest Hrest].
  - exists rest. unfold exit_trace. destruct (String.eqb gt "dense");
      [now rewrite nodes_identify_dense_edges | exact Hrest].
  - assert (Hexit : nodes (exit_trace site_is_subsample gt t1)
                    = ("_INPUT", input) :: rest).
    { unfold exit_trace. destruct (String.eqb gt "dense");
        [now rewrite nodes_identify_dense_edges | exact Hrest]. }
    destruct (add_node "_RETURN" (return_site v) _) as [e|t3] eqn:Ha; simpl.
    + now exists rest.
    + apply add_node_ok in Ha as (_ & Hn & _). exists rest.
      now rewrite Hn, Hexit.
Qed.

(** C5: whatever the poutine, the arguments and the outcome of the call, the
    trace of the call holds under [_INPUT] the node recorded before the
    computation ran, and the type of that node is [args]: none of [input],
    [return], [sample] and [param].  It is the first node; when the call
    returns, the [_RETURN] node, of type [return], is the last one. *)
Theorem input_node_recorded_with_type_args s a kw :
  let out := TracePoutine_call site_is_subsample resolve a kw s in
  exists t,
    live_trace (fst out) = Some t
    /\ get_node t "_INPUT" = Some (input_site a kw)
    /\ type (input_site a kw) = "args"
    /\ ~ In (type (input_site a kw)) ["input"; "return"; "sample"; "param"]
    /\ match snd out with
       | inr v =>
           type (return_site v) = "return"
           /\ exists middle,
                nodes t = ("_INPUT", input_site a kw)
                          :: middle ++ [("_RETURN", return_site v)]
       | inl _ => exists rest, nodes t = ("_INPUT", input_site a kw) :: rest
       end.
Proof.
  simpl. eexists. split; [apply live_trace_after_call|].
  rewrite TracePoutine_call_spec. simpl.
  pose proof (call_trace_nodes (msngr_graph_type (msngr (self s)))
                (fn (self s) a kw) (input_site a kw)) as Hn.
  simpl in Hn.
  set (out := call_trace _ _ _ _ _) in *.
  assert (Hfirst : exists rest,
            nodes (fst out) = ("_INPUT", input_site a kw) :: rest).
  { destruct (snd out); [exact Hn|]. destruct Hn as [m Hm]. eauto. }
  split; [|split; [reflexivity|split]].
  - destruct Hfirst as [rest Hrest]. unfold get_node. now rewrite Hrest.
  - simpl. intuition discriminate.
  - destruct (snd out); [exact Hn | split; [reflexivity | exact Hn]].
Qed.

(** C6: the trace of a call of a poutine whose [graph_type] is [flat] has no
    edge, whatever the computation does and however the call ends. *)
Theorem flat_trace_has_no_edges s a kw :
  msngr_graph_type (msngr (self s)) = "flat" ->
  exists t,
    live_trace (fst (TracePoutine_call site_is_subsample resolve a kw s))
    = Some t
    /\ graph_type t = "flat"
    /\ edges t = [].
Proof.
  intros Hflat. eexists. split; [apply live_trace_after_call|].
  rewrite Hflat.
  apply (call_trace_invariant
           (fun t => graph_type t = "flat" /\ edges t = [])).
  - intros key site t t' [Hg He] Ha.
    apply add_node_ok in Ha as (_ & _ & He' & Hg'). split; congruence.
  - intros t Ht. exact Ht.
  - split; reflexivity.
Qed.

(** ** Copies of the trace *)

(** [_reset] allocates one [Trace] object and changes no other, however it
    ends. *)
Lemma reset_heap s : exists x, heap (fst (_reset s)) = heap s ++ [x].
Proof.
  unfold _reset, bind, get_graph_type, alloc.
  set (gt := msngr_graph_type (msngr (self s))).
  set (s1 := set_heap (heap s ++ [Trace_new gt]) s).
  assert (H1 : heap s1 = heap s ++ [Trace_new gt]) by reflexivity.
  unfold get_msngr_trace. destruct (msngr_trace (msngr (self s1))) as [l|];
    [|eauto].
  unfold read. destruct (heap s1 !! l) as [t|]; [|eauto].
  unfold getitem at 1. destruct (get_node t "_INPUT") as [input|];
    [|unfold raise; eauto].
  unfold ret at 1, getitem at 1. destruct (args input) as [ar|];
    [|unfold raise; eauto].
  unfold ret at 1, getitem at 1. destruct (kwargs input) as [kw|];
    [|unfold raise; eauto].
  unfold ret at 1.
  erewrite Trace_add_node_spec by (rewrite H1; apply lookup_snoc_last).
  simpl. rewrite insert_snoc_last. eauto.
Qed.

(** C7: the object [get_trace] returns has the nodes and edges of the live
    trace, and neither a later [_reset] of the messenger nor a later call of
    the poutine changes it, however they end. *)
Theorem copy_unaffected_by_reset s s1 copy :
  TraceMessenger_get_trace s = (s1, inr copy) ->
  (exists t, live_trace s = Some t /\ heap s1 !! copy = Some t)
  /\ (forall s2 r, _reset s1 = (s2, r) -> heap s2 !! copy = heap s1 !! copy)
  /\ (forall a kw s2 r,
        TracePoutine_call site_is_subsample resolve a kw s1 = (s2, r) ->
        heap s2 !! copy = heap s1 !! copy).
Proof.
  unfold TraceMessenger_get_trace, bind, get_msngr_trace, read, alloc.
  unfold live_trace, live_loc.
  destruct (msngr_trace (msngr (self s))) as [l|]; [|discriminate].
  destruct (heap s !! l) as [t|] eqn:Ht; [|discriminate].
  intros [= <- <-]. simpl.
  assert (Hcopy : (heap s ++ [t]) !! length (heap s) = Some t)
    by apply lookup_snoc_last.
  split; [eauto|]. split.
  - intros s2 r Hreset.
    destruct (reset_heap (set_heap (heap s ++ [t]) s)) as [x Hx].
    rewrite Hreset in Hx. simpl in Hx. rewrite Hx.
    apply lookup_app_l. rewrite length_app. simpl. lia.
  - intros a kw s2 r Hcall. rewrite TracePoutine_call_spec in Hcall.
    injection Hcall as <- _. simpl.
    apply lookup_app_l. rewrite length_app. simpl. lia.
Qed.

(** ** The stack of handlers *)

(** C8: when the computation raises [e] with the handler installed, the
    handler is on top of the stack at that moment, [Poutine.__call__] raises
    the same [e] and leaves the stack as it was before the call; the call of
    the poutine, of which the state [s] is the one its first statements
    reach, raises [e] as well and leaves the stack as it found it. *)
Theorem scope_exception_safe s l t a kw s2 e :
  live_loc s = Some l ->
  heap s !! l = Some t ->
  run resolve (fn (self s) a kw) (fst (Messenger_enter s)) = (s2, inl e) ->
  PYRO_STACK s2 = PYRO_STACK s ++ [msngr_id (msngr (self s))]
  /\ (exists s3,
        Poutine_call site_is_subsample resolve a kw s = (s3, inl e)
        /\ PYRO_STACK s3 = PYRO_STACK s)
  /\ forall s_pre,
       TracePoutine_setup a kw s_pre = (s, inr tt) ->
       exists s',
         TracePoutine_call site_is_subsample resolve a kw s_pre = (s', inl e)
         /\ PYRO_STACK s' = PYRO_STACK s_pre.
Proof.
  intros Hl Ht Hrun.
  pose proof Hrun as Hrun'.
  rewrite (run_spec (fn (self s) a kw) (fst (Messenger_enter s)) l t
             (installed_enter s) Hl Ht) in Hrun'.
  injection Hrun' as Hs2 He.
  split; [now rewrite <- Hs2|]. split.
  - rewrite (Poutine_call_spec s l t a kw Hl Ht), He. eauto.
  - intros s_pre Hsetup.
    assert (Hfn : fn (self s) = fn (self s_pre)).
    { rewrite TracePoutine_setup_spec in Hsetup. now injection Hsetup as <-. }
    rewrite Hfn in Hrun.
    destruct (call_raises s_pre a kw s (fst (Messenger_enter s)) s2 e
                Hsetup eq_refl Hrun) as [s' Hs'].
    exists s'. split; [exact Hs'|].
    rewrite TracePoutine_call_spec in Hs'. now injection Hs' as <- _.
Qed.

(** The stack after a call is the stack before it, however the call ends. *)
Lemma call_restores_stack s a kw :
  PYRO_STACK (fst (TracePoutine_call site_is_subsample resolve a kw s))
  = PYRO_STACK s.
Proof. now rewrite TracePoutine_call_spec. Qed.

(** ** Two calls in a row *)

(** C9: when a call returns [v], a second call with the same arguments, made
    in the state the first one leaves, returns [v] too, and the trace it
    builds, a new object, has the graph type, the nodes and the edges of the
    trace of the first call. *)
Theorem tracing_deterministic s a kw s1 v :
  TracePoutine_call site_is_subsample resolve a kw s = (s1, inr v) ->
  exists s2 t,
    TracePoutine_call site_is_subsample resolve a kw s1 = (s2, inr v)
    /\ live_trace s1 = Some t
    /\ live_trace s2 = Some t
    /\ live_loc s1 <> live_loc s2.
Proof.
  intros Hcall.
  pose proof (live_trace_after_call s a kw) as Hlive1.
  pose proof (live_trace_after_call s1 a kw) as Hlive2.
  pose proof (TracePoutine_call_spec s1 a kw) as Hspec2.
  rewrite TracePoutine_call_spec in Hcall. injection Hcall as Hs1 Hv.
  rewrite TracePoutine_call_spec in Hlive1. simpl in Hlive1.
  rewrite Hs1 in Hlive1.
  assert (Hgt : msngr_graph_type (msngr (self s1))
                = msngr_graph_type (msngr (self s))) by now rewrite <- Hs1.
  assert (Hfn : fn (self s1) = fn (self s)) by now rewrite <- Hs1.
  rewrite Hgt, Hfn in Hspec2, Hlive2. rewrite Hv in Hspec2.
  rewrite Hspec2 in Hlive2. simpl in Hlive2.
  eexists _, _. split; [exact Hspec2|]. split; [exact Hlive1|].
  split; [exact Hlive2|].
  rewrite <- Hs1. unfold live_loc. simpl.
  rewrite length_app. simpl. intros [= H]. lia.
Qed.

(** ** The graph type *)

Lemma reset_live_trace s s' :
  _reset s = (s', inr tt) ->
  msngr_graph_type (msngr (self s')) = msngr_graph_type (msngr (self s))
  /\ exists t,
       live_trace s' = Some t
       /\ graph_type t = msngr_graph_type (msngr (self s)).
Proof.
  unfold _reset, bind, get_graph_type, alloc.
  set (gt := msngr_graph_type (msngr (self s))).
  set (s1 := set_heap (heap s ++ [Trace_new gt]) s).
  assert (H1 : heap s1 = heap s ++ [Trace_new gt]) by reflexivity.
  unfold get_msngr_trace. destruct (msngr_trace (msngr (self s1))) as [l|];
    [|discriminate].
  unfold read. destruct (heap s1 !! l) as [t|]; [|discriminate].
  unfold getitem at 1. destruct (get_node t "_INPUT") as [input|];
    [|discriminate].
  unfold ret at 1, getitem at 1. destruct (args input) as [ar|];
    [|discriminate].
  unfold ret at 1, getitem at 1. destruct (kwargs input) as [kw|];
    [|discriminate].
  unfold ret at 1.
  erewrite Trace_add_node_spec by (rewrite H1; apply lookup_snoc_last).
  simpl. rewrite insert_snoc_last. intros [= <-].
  split; [reflexivity|]. unfold live_trace, live_loc. simpl.
  rewrite lookup_snoc_last. eauto.
Qed.

(** C10: [TraceMessenger.__init__] turns [None] into [flat], fails its
    assertion on a string that is neither [flat] nor [dense], and accepts
    [flat] and [dense], building the handler that holds the very string it is
    given; nothing else is accepted.  [TracePoutine.__init__] fails or builds
    its messenger the same way, so it accepts [None], [flat] and [dense] and
    fails on any other string.  Every trace the handler creates, in a call of
    the poutine and in [_reset], has the handler's graph type, which neither
    of them changes; hence the trace of a call of a poutine constructed with
    an accepted string has that string as its graph type. *)
Theorem graph_type_configuration :
  (forall ident,
     TraceMessenger_init ident None
     = inr {| msngr_id := ident; msngr_graph_type := "flat";
              msngr_trace := None |})
  /\ (forall ident g,
        g <> "flat" -> g <> "dense" ->
        TraceMessenger_init ident (Some g) = inl AssertionError)
  /\ (forall ident g,
        g = "flat" \/ g = "dense" ->
        TraceMessenger_init ident (Some g)
        = inr {| msngr_id := ident; msngr_graph_type := g;
                 msngr_trace := None |})
  /\ (forall ident g m,
        TraceMessenger_init ident (Some g) = inr m ->
        msngr_graph_type m = g /\ (g = "flat" \/ g = "dense"))
  /\ (forall ident (f : list Value -> list (string * Value) -> Comp Value) gt,
        match TraceMessenger_init ident gt with
        | inl e => TracePoutine_init ident f gt = inl e
        | inr m =>
            TracePoutine_init ident f gt
            = inr {| msngr := m; fn := f; poutine_trace := None |}
        end)
  /\ (forall ident (f : list Value -> list (string * Value) -> Comp Value),
        TracePoutine_init ident f None
        = inr {| msngr := {| msngr_id := ident; msngr_graph_type := "flat";
                             msngr_trace := None |};
                 fn := f; poutine_trace := None |})
  /\ (forall ident (f : list Value -> list (string * Value) -> Comp Value) g,
        g <> "flat" -> g <> "dense" ->
        TracePoutine_init ident f (Some g) = inl AssertionError)
  /\ (forall ident (f : list Value -> list (string * Value) -> Comp Value) g,
        g = "flat" \/ g = "dense" ->
        TracePoutine_init ident f (Some g)
        = inr {| msngr := {| msngr_id := ident; msngr_graph_type := g;
                             msngr_trace := None |};
                 fn := f; poutine_trace := None |})
  /\ (forall s a kw,
        let s' :=
          fst (TracePoutine_call site_is_subsample resolve a kw s) in
        msngr_graph_type (msngr (self s'))
        = msngr_graph_type (msngr (self s))
        /\ exists t,
             live_trace s' = Some t
             /\ graph_type t = msngr_graph_type (msngr (self s)))
  /\ (forall s s',
        _reset s = (s', inr tt) ->
        msngr_graph_type (msngr (self s'))
        = msngr_graph_type (msngr (self s))
        /\ exists t,
             live_trace s' = Some t
             /\ graph_type t = msngr_graph_type (msngr (self s)))
  /\ (forall ident (f : list Value -> list (string * Value) -> Comp Value) g
             stk h a kw,
        g = "flat" \/ g = "dense" ->
        exists p t,
          TracePoutine_init ident f (Some g) = inr p
          /\ msngr_graph_type (msngr p) = g
          /\ live_trace
               (fst (TracePoutine_call site_is_subsample resolve a kw
                       (world stk h p)))
             = Some t
          /\ graph_type t = g).
Proof.
  assert (Hcall : forall s a kw,
    exists t,
      live_trace (fst (TracePoutine_call site_is_subsample resolve a kw s))
      = Some t
      /\ graph_type t = msngr_graph_type (msngr (self s))).
  { intros s a kw. eexists. split; [apply live_trace_after_call|].
    apply (call_trace_invariant
             (fun t => graph_type t = msngr_graph_type (msngr (self s)))).
    - intros key site t t' Hg Ha.
      apply add_node_ok in Ha as (_ & _ & _ & Hg'). congruence.
    - intros t Hg. unfold exit_trace.
      destruct (String.eqb _ "dense"); [|exact Hg].
      now rewrite graph_type_identify_dense_edges.
    - reflexivity. }
  repeat apply conj.
  - reflexivity.
  - intros ident g Hf Hd. unfold TraceMessenger_init.
    apply String.eqb_neq in Hf, Hd. now rewrite Hf, Hd.
  - intros ident g [-> | ->]; reflexivity.
  - intros ident g m. unfold TraceMessenger_init.
    destruct (String.eqb_spec g "flat") as [Hf|Hf];
      destruct (String.eqb_spec g "dense") as [Hd|Hd]; simpl;
      try discriminate; intros [= <-]; simpl; auto.
  - intros ident f gt. unfold TracePoutine_init.
    destruct (TraceMessenger_init ident gt); reflexivity.
  - reflexivity.
  - intros ident f g Hf Hd. unfold TracePoutine_init, TraceMessenger_init.
    apply String.eqb_neq in Hf, Hd. now rewrite Hf, Hd.
  - intros ident f g [-> | ->]; reflexivity.
  - intros s a kw s'. subst s'. split.
    + now rewrite TracePoutine_call_spec.
    + apply Hcall.
  - apply reset_live_trace.
  - intros ident f g stk h a kw Hg.
    destruct (Hcall (world stk h
                       {| msngr := {| msngr_id := ident;
                                      msngr_graph_type := g;
                                      msngr_trace := None |};
                          fn := f; poutine_trace := None |}) a kw)
      as (t & Ht & Hgt).
    eexists _, t. split; [destruct Hg as [-> | ->]; reflexivity|].
    split; [reflexivity|]. split; [exact Ht | exact Hgt].
Qed.

End Handler.

(** * The theorems at concrete inputs *)

(** Sampling [x] twice: the second effect finds [x] in the trace, in a state
    the handler is installed in. *)
Lemma duplicate_site_raises_witness :
  let s1 := fst (Messenger_enter
                   (fst (TracePoutine_setup [] []
                           (world [] [] (poutine_of "flat" sample_twice))))) in
  let s := fst (apply_stack resolve_zero (sample_site "x" []) s1) in
  exists m s',
    TracePoutine_call no_subsample resolve_zero [] []
      (world [] [] (poutine_of "flat" sample_twice))
    = (s', inl (RuntimeError m))
    /\ installed s = true
    /\ apply_stack resolve_zero (sample_site "x" []) s
       = (s, inl (RuntimeError m)).
Proof.
  intros s1 s.
  pose (s_pre := world [] [] (poutine_of "flat" sample_twice)).
  pose (s0 := fst (TracePoutine_setup [] [] s_pre)).
  assert (Hreach : reaches resolve_zero (fn (self s_pre) [] []) s1
                     (sample_site "x" []) s).
  { eapply reaches_later with (v := 0); [reflexivity | apply reaches_here]. }
  destruct (duplicate_site_raises no_subsample resolve_zero s 0%nat
              {| graph_type := "flat";
                 nodes := [("_INPUT", input_site [] []);
                           ("x", settled (sample_site "x" []) 0)];
                 edges := [] |}
              (sample_site "x" []) (settled (sample_site "x" []) 0)
              eq_refl eq_refl eq_refl
              (or_introl (conj eq_refl (or_intror eq_refl))))
    as (m & _ & Hdispatch & Hcall).
  destruct (Hcall s_pre [] [] s0 s1 eq_refl eq_refl Hreach) as [s' Hs'].
  exists m, s'. split; [exact Hs'|].
  split; [reflexivity | exact (Hdispatch eq_refl)].
Defined.

(** A [param] effect at [w] twice: the second one is rejected when its node
    is written, in a state the handler is installed in. *)
Lemma second_param_fails_loudly_witness :
  let s1 := fst (Messenger_enter
                   (fst (TracePoutine_setup [] []
                           (world [] [] (poutine_of "flat" param_twice))))) in
  let s := fst (apply_stack resolve_zero (param_site "w") s1) in
  exists e s',
    TracePoutine_call no_subsample resolve_zero [] []
      (world [] [] (poutine_of "flat" param_twice))
    = (s', inl e)
    /\ e = DuplicateSiteError "w"
    /\ installed s = true
    /\ apply_stack resolve_zero (param_site "w") s = (s, inl e).
Proof.
  intros s1 s.
  pose (s_pre := world [] [] (poutine_of "flat" param_twice)).
  pose (s0 := fst (TracePoutine_setup [] [] s_pre)).
  assert (Hreach : reaches resolve_zero (fn (self s_pre) [] []) s1
                     (param_site "w") s).
  { eapply reaches_later with (v := 0); [reflexivity | apply reaches_here]. }
  destruct (second_param_fails_loudly no_subsample resolve_zero s 0%nat
              {| graph_type := "flat";
                 nodes := [("_INPUT", input_site [] []);
                           ("w", settled (param_site "w") 0)];
                 edges := [] |}
              (param_site "w") (settled (param_site "w") 0)
              eq_refl eq_refl eq_refl eq_refl eq_refl)
    as (_ & (e & Hdispatch & He & Hcall) & _).
  destruct (Hcall s_pre [] [] s0 s1 eq_refl eq_refl Hreach) as [s' Hs'].
  exists e, s'. split; [exact Hs'|]. split; [exact (He 0 eq_refl)|].
  split; [reflexivity | exact (Hdispatch eq_refl)].
Defined.

(** The plate model under a [flat] poutine. *)
Lemma flat_trace_has_no_edges_witness :
  exists t,
    live_trace
      (fst (TracePoutine_call no_subsample resolve_zero [] []
              (world [] [] (poutine_of "flat" plate_model))))
    = Some t
    /\ graph_type t = "flat"
    /\ edges t = [].
Proof.
  apply (flat_trace_has_no_edges no_subsample resolve_zero
           (world [] [] (poutine_of "flat" plate_model)) [] []).
  reflexivity.
Defined.

(** The same model under a [dense] poutine gets the two edges into [y]. *)
Example dense_call_edges :
  option_map (fun t => edges t)
    (live_trace
       (fst (TracePoutine_call no_subsample resolve_zero [] []
               (world [] [] (poutine_of "dense" plate_model)))))
  = Some [("x@0", "y"); ("x@1", "y")].
Proof. reflexivity. Qed.

(** A copy taken after a call of the plate model. *)
Lemma copy_unaffected_by_reset_witness :
  let s := fst (TracePoutine_call no_subsample resolve_zero [] []
                  (world [] [] (poutine_of "dense" plate_model))) in
  let s1 := fst (TraceMessenger_get_trace s) in
  (exists t, live_trace s = Some t /\ heap s1 !! 1%nat = Some t)
  /\ (forall s2 r, _reset s1 = (s2, r) -> heap s2 !! 1%nat = heap s1 !! 1%nat)
  /\ (forall a kw s2 r,
        TracePoutine_call no_subsample resolve_zero a kw s1 = (s2, r) ->
        heap s2 !! 1%nat = heap s1 !! 1%nat).
Proof.
  intros s s1.
  apply (copy_unaffected_by_reset no_subsample resolve_zero s s1 1%nat).
  reflexivity.
Defined.

(** A computation that raises after one effect, under two outer handlers. *)
Lemma scope_exception_safe_witness :
  let s_pre := world [3%nat; 5%nat] [] (poutine_of "dense" failing_fn) in
  let s := fst (TracePoutine_setup [] [] s_pre) in
  (exists s3,
     Poutine_call no_subsample resolve_zero [] [] s
     = (s3, inl (Failure "boom"))
     /\ PYRO_STACK s3 = [3%nat; 5%nat])
  /\ exists s',
       TracePoutine_call no_subsample resolve_zero [] [] s_pre
       = (s', inl (Failure "boom"))
       /\ PYRO_STACK s' = [3%nat; 5%nat].
Proof.
  intros s_pre s.
  destruct (scope_exception_safe no_subsample resolve_zero s 0%nat
              (input_trace "dense" (input_site [] [])) [] []
              (fst (run resolve_zero (fn (self s) [] [])
                      (fst (Messenger_enter s))))
              (Failure "boom") eq_refl eq_refl eq_refl)
    as (_ & Hscope & Hcall).
  split; [exact Hscope | exact (Hcall s_pre eq_refl)].
Defined.

(** Two calls of the plate model in a row. *)
Lemma tracing_deterministic_witness :
  let s := world [] [] (poutine_of "dense" plate_model) in
  let s1 := fst (TracePoutine_call no_subsample resolve_zero [] [] s) in
  exists s2 t,
    TracePoutine_call no_subsample resolve_zero [] [] s1 = (s2, inr 0)
    /\ live_trace s1 = Some t
    /\ live_trace s2 = Some t
    /\ live_loc s1 <> live_loc s2.
Proof.
  intros s s1.
  apply (tracing_deterministic no_subsample resolve_zero s [] [] s1 0).
  reflexivity.
Defined.

(** The default, a graph type that is neither [flat] nor [dense], the two
    that are accepted, and the trace of a call of a [dense] poutine. *)
Lemma graph_type_configuration_witness :
  TraceMessenger_init 7 None
  = inr {| msngr_id := 7; msngr_graph_type := "flat"; msngr_trace := None |}
  /\ TraceMessenger_init 7 (Some "sparse") = inl AssertionError
  /\ TraceMessenger_init 7 (Some "flat")
     = inr {| msngr_id := 7; msngr_graph_type := "flat";
              msngr_trace := None |}
  /\ TraceMessenger_init 7 (Some "dense")
     = inr {| msngr_id := 7; msngr_graph_type := "dense";
              msngr_trace := None |}
  /\ TracePoutine_init 7 plate_model (Some "sparse") = inl AssertionError
  /\ TracePoutine_init 7 plate_model (Some "dense")
     = inr (poutine_of "dense" plate_model)
  /\ exists p t,
       TracePoutine_init 7 plate_model (Some "dense") = inr p
       /\ msngr_graph_type (msngr p) = "dense"
       /\ live_trace
            (fst (TracePoutine_call no_subsample resolve_zero [] []
                    (world [] [] p)))
          = Some t
       /\ graph_type t = "dense".
Proof.
  destruct (graph_type_configuration no_subsample resolve_zero)
    as (Hnone & Hbad & Hgood & _ & _ & _ & Hpbad & Hpgood & _ & _ & Hend).
  split; [exact (Hnone 7%nat)|].
  split; [apply (Hbad 7%nat "sparse"); discriminate|].
  split; [apply (Hgood 7%nat "flat"); left; reflexivity|].
  split; [apply (Hgood 7%nat "dense"); right; reflexivity|].
  split; [apply (Hpbad 7%nat plate_model "sparse"); discriminate|].
  split; [apply (Hpgood 7%nat plate_model "dense"); right; reflexivity|].
  apply (Hend 7%nat plate_model "dense" [] [] [] []). right. reflexivity.
Defined.

(** * More on identify_dense_edges *)

Section DenseEdgesMore.

Context {Value : Type}.
Variable site_is_subsample : Site Value -> bool.
Implicit Types (t : Trace Value) (node past N P : Site Value).
Implicit Types (key u v : string) (items : list (string * Site Value)).

(** X1: the pass leaves the nodes and the graph type of the trace as they
    are and keeps every edge the trace has. *)
Theorem identify_dense_edges_only_adds_edges t :
  nodes (identify_dense_edges site_is_subsample t) = nodes t
  /\ graph_type (identify_dense_edges site_is_subsample t) = graph_type t
  /\ incl (edges t) (edges (identify_dense_edges site_is_subsample t)).
Proof.
  split; [apply nodes_identify_dense_edges|].
  split; [apply graph_type_identify_dense_edges|].
  intros e He. now apply outer_loop_keeps.
Qed.

Lemma add_edge_present u v t :
  In (u, v) (edges t) -> add_edge u v t = t.
Proof.
  intros H. apply has_edge_In in H. unfold add_edge. now rewrite H.
Qed.

(** A trace that holds the edges the inner loop ends with is left as it is
    by the inner loop. *)
Lemma inner_loop_fixed key node items t t' :
  incl (edges (inner_loop site_is_subsample key node items t)) (edges t') ->
  inner_loop site_is_subsample key node items t' = t'.
Proof.
  revert t. induction items as [|[pn past] rest IH]; intros t; simpl; [easy|].
  destruct (site_is_subsample node); [apply IH|].
  destruct (String.eqb (type past) "sample"); [|apply IH].
  destruct (String.eqb pn key); [reflexivity|].
  destruct (past_node_independent _ _); [apply IH|].
  intros Hincl. rewrite add_edge_present.
  - now apply (IH (add_edge pn key t)).
  - apply Hincl, inner_loop_keeps, In_edges_add_edge. now right.
Qed.

Lemma outer_loop_fixed items t t' :
  nodes t' = nodes t ->
  incl (edges (outer_loop site_is_subsample items t)) (edges t') ->
  outer_loop site_is_subsample items t' = t'.
Proof.
  revert t. induction items as [|[key node] rest IH]; intros t Hn; simpl;
    [easy|].
  destruct (site_is_subsample node); [now apply IH|].
  destruct (String.eqb (type node) "sample"); [|now apply IH].
  intros Hincl. rewrite Hn.
  rewrite (inner_loop_fixed key node (nodes t) t t').
  - apply (IH (inner_loop site_is_subsample key node (nodes t) t));
      [now rewrite nodes_inner_loop | exact Hincl].
  - intros e He. now apply Hincl, outer_loop_keeps.
Qed.

(** X2: running the pass a second time changes nothing. *)
Theorem identify_dense_edges_idempotent t :
  identify_dense_edges site_is_subsample
    (identify_dense_edges site_is_subsample t)
  = identify_dense_edges site_is_subsample t.
Proof.
  unfold identify_dense_edges at 1. rewrite nodes_identify_dense_edges.
  apply (outer_loop_fixed (nodes t) t).
  - apply nodes_identify_dense_edges.
  - apply incl_refl.
Qed.

Lemma dense_edge_endpoints t u v :
  List.NoDup (node_names t) ->
  In (u, v) (edges (identify_dense_edges site_is_subsample t)) ->
  ~ In (u, v) (edges t) ->
  u <> v
  /\ exists P N,
       get_node t u = Some P /\ get_node t v = Some N
       /\ type P = "sample" /\ type N = "sample"
       /\ site_is_subsample N = false
       /\ ~ frames_differ_in_counter N P.
Proof.
  intros Hnd H Hold. unfold identify_dense_edges in H.
  apply outer_loop_origin in H
    as [H|(Hne & n & p & Hn & Hp & Hsub & Htn & Htp & Hind)];
    [contradiction|].
  split; [exact Hne|]. exists p, n.
  repeat split; auto using In_get_node.
  rewrite <- past_node_independent_true. now rewrite Hind.
Qed.

(** X3: in a trace with pairwise distinct names, an edge the pass adds joins
    two nodes of the trace of type [sample] under different names, its
    target is no subsample site, and the two are not judged independent. *)
Theorem dense_edge_joins_sample_sites t u v :
  List.NoDup (node_names t) ->
  In (u, v) (edges (identify_dense_edges site_is_subsample t)) ->
  ~ In (u, v) (edges t) ->
  u <> v
  /\ exists P N,
       get_node t u = Some P /\ get_node t v = Some N
       /\ type P = "sample" /\ type N = "sample"
       /\ site_is_subsample N = false
       /\ ~ frames_differ_in_counter N P.
Proof. apply dense_edge_endpoints. Qed.

(** Where an edge of the inner loop comes from, with the place of its
    source: no [sample] node before it bears the name of the target. *)
Lemma inner_loop_origin_before key node items t u v :
  In (u, v) (edges (inner_loop site_is_subsample key node items t)) ->
  In (u, v) (edges t)
  \/ (v = key /\ u <> key /\ site_is_subsample node = false
      /\ exists before past rest,
           items = before ++ (u, past) :: rest
           /\ forall k s, In (k, s) before -> type s = "sample" -> k <> key).
Proof.
  revert t. induction items as [|[pn past] rest IH]; intros t; simpl; [auto|].
  destruct (site_is_subsample node) eqn:Hsub.
  { intros H. apply IH in H as [H|(_ & _ & [=] & _)]. now left. }
  destruct (String.eqb_spec (type past) "sample") as [Hty|Hty].
  - destruct (String.eqb_spec pn key) as [Hk|Hk]; [auto|].
    intros H. apply IH in H as [H|(Hv & Hu & _ & b & p & r & Hsplit & Hb)].
    + assert (H' : In (u, v) (edges t) \/ (u, v) = (pn, key)).
      { destruct (past_node_independent _ _); [now left|].
        now apply In_edges_add_edge. }
      destruct H' as [H'|[= -> ->]]; [now left | right].
      repeat split; auto. exists [], past, rest. split; [reflexivity|].
      intros k s [].
    + right. repeat split; auto. exists ((pn, past) :: b), p, r.
      split; [now rewrite Hsplit|].
      intros k s [[= <- <-]|Hin] Hs; [exact Hk | now apply (Hb k s)].
  - intros H. apply IH in H as [H|(Hv & Hu & _ & b & p & r & Hsplit & Hb)];
      [now left | right].
    repeat split; auto. exists ((pn, past) :: b), p, r.
    split; [now rewrite Hsplit|].
    intros k s [[= <- <-]|Hin] Hs; [contradiction | now apply (Hb k s)].
Qed.

Lemma outer_loop_origin_before items t u v :
  In (u, v) (edges (outer_loop site_is_subsample items t)) ->
  In (u, v) (edges t)
  \/ (u <> v
      /\ exists node,
           In (v, node) items /\ type node = "sample"
           /\ exists before past rest,
                nodes t = before ++ (u, past) :: rest
                /\ forall k s,
                     In (k, s) before -> type s = "sample" -> k <> v).
Proof.
  revert t. induction items as [|[k node] rest IH]; intros t; simpl; [auto|].
  assert (Hrest :
    In (u, v) (edges (outer_loop site_is_subsample rest t)) ->
    In (u, v) (edges t)
    \/ (u <> v
        /\ exists node0,
             ((k, node) = (v, node0) \/ In (v, node0) rest)
             /\ type node0 = "sample"
             /\ exists before past rest0,
                  nodes t = before ++ (u, past) :: rest0
                  /\ forall k0 s,
                       In (k0, s) before -> type s = "sample" -> k0 <> v)).
  { intros H. apply IH in H as [H|(Hne & n & Hin & Hp)]; [now left | right].
    split; [exact Hne|]. exists n. tauto. }
  destruct (site_is_subsample node) eqn:Hsub; [exact Hrest|].
  destruct (String.eqb_spec (type node) "sample") as [Hty|Hty];
    [|exact Hrest].
  intros H. apply IH in H as [H|(Hne & n & Hin & Htn & Hp)].
  - apply inner_loop_origin_before in H as [H|(Hv & Hu & _ & Hp)];
      [now left | right]. subst v.
    split; [exact Hu|]. exists node. auto.
  - right. split; [exact Hne|]. exists n.
    rewrite nodes_inner_loop in Hp. auto.
Qed.

Lemma dense_edge_positions t u v :
  List.NoDup (node_names t) ->
  In (u, v) (edges (identify_dense_edges site_is_subsample t)) ->
  ~ In (u, v) (edges t) ->
  exists i j P N,
    (i < j)%nat
    /\ nodes t !! i = Some (u, P)
    /\ nodes t !! j = Some (v, N).
Proof.
  intros Hnd H Hold. unfold identify_dense_edges in H.
  apply outer_loop_origin_before in H
    as [H|(Hne & n & Hn & Htn & b & p & r & Hsplit & Hb)]; [contradiction|].
  rewrite Hsplit in Hn. apply in_app_or in Hn as [Hn|[[= Huv _]|Hn]].
  - exfalso. now apply (Hb v n Hn Htn).
  - contradiction.
  - apply list_elem_of_In, list_elem_of_lookup in Hn as [m Hm].
    exists (length b), (length b + S m)%nat, p, n.
    split; [lia|]. rewrite Hsplit. split.
    + now apply list_lookup_middle.
    + rewrite lookup_app_r by lia.
      replace (length b + S m - length b)%nat with (S m) by lia.
      exact Hm.
Qed.

(** X4: in a trace with pairwise distinct names, an edge the pass adds goes
    from a node to a node recorded strictly later. *)
Theorem dense_edge_goes_forward t u v :
  List.NoDup (node_names t) ->
  In (u, v) (edges (identify_dense_edges site_is_subsample t)) ->
  ~ In (u, v) (edges t) ->
  exists i j P N,
    (i < j)%nat
    /\ nodes t !! i = Some (u, P)
    /\ nodes t !! j = Some (v, N).
Proof. apply dense_edge_positions. Qed.

(** Both at once: the edge goes forward, between two [sample] nodes. *)
Lemma dense_edge_shape t u v :
  List.NoDup (node_names t) ->
  In (u, v) (edges (identify_dense_edges site_is_subsample t)) ->
  ~ In (u, v) (edges t) ->
  exists i j P N,
    (i < j)%nat
    /\ nodes t !! i = Some (u, P)
    /\ nodes t !! j = Some (v, N)
    /\ type P = "sample" /\ type N = "sample".
Proof.
  intros Hnd H Hold.
  destruct (dense_edge_positions t u v Hnd H Hold)
    as (i & j & P & N & Hlt & Hi & Hj).
  destruct (dense_edge_endpoints t u v Hnd H Hold)
    as (_ & P' & N' & HP & HN & HtP & HtN & _).
  exists i, j, P, N. repeat split; auto.
  - assert (HP' : get_node t u = Some P).
    { apply In_get_node; [exact Hnd|].
      apply list_elem_of_In, list_elem_of_lookup. eauto. }
    congruence.
  - assert (HN' : get_node t v = Some N).
    { apply In_get_node; [exact Hnd|].
      apply list_elem_of_In, list_elem_of_lookup. eauto. }
    congruence.
Qed.

Lemma past_node_independent_swap (qs ts : list CondIndepStackFrame) :
  past_node_independent qs ts = past_node_independent ts qs.
Proof.
  revert ts. induction qs as [|q qs IH]; intros [|tg ts]; simpl; try easy.
  rewrite (String.eqb_sym (frame_name q)), (Z.eqb_sym (frame_counter q)).
  now rewrite IH.
Qed.

(** X5: the independence test does not depend on the order of its two
    stacks. *)
Theorem past_node_independent_sym (qs ts : list CondIndepStackFrame) :
  past_node_independent qs ts = past_node_independent ts qs.
Proof. apply past_node_independent_swap. Qed.

(** X6: a stack and an extension of it are never judged independent; so a
    site outside of every plate, and two sites with the same stack, are
    not. *)
Theorem past_node_independent_prefix (qs extra : list CondIndepStackFrame) :
  past_node_independent qs (qs ++ extra) = false
  /\ past_node_independent (qs ++ extra) qs = false.
Proof.
  assert (H : past_node_independent qs (qs ++ extra) = false).
  { induction qs as [|q qs IH]; simpl; [reflexivity|].
    now rewrite Z.eqb_refl, andb_false_r. }
  split; [exact H | now rewrite past_node_independent_swap].
Qed.

End DenseEdgesMore.

(** * More on the tracing handler *)

Section HandlerMore.

Context {Value : Type}.
Variable site_is_subsample : Site Value -> bool.
Variable resolve : Site Value -> Exn + Value.
Implicit Types (s : State Value) (t : Trace Value) (msg : Site Value).
Implicit Types (c : Comp Value) (l : nat).

Lemma assoc_app_l key (l1 l2 : list (string * Site Value)) site :
  assoc key l1 = Some site -> assoc key (l1 ++ l2) = Some site.
Proof.
  induction l1 as [|[k x] l1 IH]; simpl; [discriminate|].
  destruct (String.eqb k key); [easy | exact IH].
Qed.

Lemma assoc_app_r key (l1 l2 : list (string * Site Value)) :
  assoc key l1 = None -> assoc key (l1 ++ l2) = assoc key l2.
Proof.
  induction l1 as [|[k x] l1 IH]; simpl; [easy|].
  destruct (String.eqb k key); [discriminate | exact IH].
Qed.

Lemma contains_false_get_node t key :
  contains t key = false -> get_node t key = None.
Proof.
  intros Hc. destruct (get_node t key) as [site|] eqn:Hg; [|reflexivity].
  assert (contains t key = true) by (apply contains_get_node; eauto).
  congruence.
Qed.

Lemma process_check_fresh t msg :
  contains t (name msg) = false -> process_check t msg = inr tt.
Proof.
  intros Hc. unfold process_check. rewrite Hc.
  destruct (String.eqb (type msg) "sample"); [reflexivity|].
  now destruct (String.eqb (type msg) "param").
Qed.

(** X7: while the handler is installed, an effect whose name is not in the
    live trace, and whose value is settled to [v], returns [v] and is
    written at the end of the live trace: the trace then holds the settled
    message under that name, the nodes under the other names and the edges
    are as before, and so is the stack of handlers.  While the handler is
    not installed, the effect is settled and the world is as before. *)
Theorem fresh_effect_is_recorded s l t msg v :
  (installed s = false -> apply_stack resolve msg s = (s, resolve msg)) /\
  (installed s = true ->
  live_loc s = Some l ->
  heap s !! l = Some t ->
  contains t (name msg) = false ->
  resolve msg = inr v ->
  exists s' t',
    apply_stack resolve msg s = (s', inr v)
    /\ live_loc s' = Some l
    /\ heap s' !! l = Some t'
    /\ nodes t' = nodes t ++ [(name msg, settled msg v)]
    /\ edges t' = edges t
    /\ get_node t' (name msg) = Some (settled msg v)
    /\ (forall key, key <> name msg -> get_node t' key = get_node t key)
    /\ PYRO_STACK s' = PYRO_STACK s).
Proof.
  split; [apply apply_stack_not_installed|].
  intros Hi Hl Ht Hc Hv. rewrite (apply_stack_spec resolve s l t msg Hi Hl Ht).
  unfold trace_apply. rewrite (process_check_fresh t msg Hc), Hv.
  unfold add_node. change (name (settled msg v)) with (name msg).
  rewrite Hc. simpl. eexists _, _. split; [reflexivity|].
  split; [exact Hl|]. split.
  { simpl. apply list_lookup_insert_eq. now apply lookup_lt_Some in Ht. }
  simpl. repeat split.
  - unfold get_node. simpl.
    rewrite assoc_app_r by now apply contains_false_get_node.
    simpl. now rewrite String.eqb_refl.
  - intros key Hkey. unfold get_node. simpl.
    destruct (assoc key (nodes t)) as [site|] eqn:Ha.
    + now apply assoc_app_l.
    + rewrite assoc_app_r by exact Ha. simpl.
      apply not_eq_sym, String.eqb_neq in Hkey. now rewrite Hkey.
Qed.

(** ** The trace of a computation with distinct names *)

Lemma unhandled_effect msg k v :
  resolve msg = inr v ->
  unhandled resolve (Effect msg k)
  = (settled msg v :: fst (unhandled resolve (k v)),
     snd (unhandled resolve (k v))).
Proof.
  intros Hv. simpl. rewrite Hv. now destruct (unhandled resolve (k v)).
Qed.

(** With names that are new to the trace and pairwise distinct, the
    computation writes the sites it performs, in order. *)
Lemma trace_run_fresh_trace c t :
  List.NoDup (node_names t ++ map (@name _) (fst (unhandled resolve c))) ->
  fst (trace_run resolve c t)
  = {| graph_type := graph_type t;
       nodes := nodes t ++ map (@entry _) (fst (unhandled resolve c));
       edges := edges t |}.
Proof.
  revert t. induction c as [v|e|msg k IH]; intros t Hnd.
  - simpl. rewrite app_nil_r. now destruct t.
  - simpl. rewrite app_nil_r. now destruct t.
  - simpl trace_run. unfold trace_apply.
    destruct (process_check t msg) as [e|[]] eqn:Hcheck.
    { simpl. destruct (resolve msg) as [e'|v] eqn:Hv.
      - simpl. rewrite app_nil_r. now destruct t.
      - exfalso. rewrite (unhandled_effect msg k v Hv) in Hnd. simpl in Hnd.
        apply List.NoDup_remove_2 in Hnd.
        assert (Hc : contains t (name msg) = true).
        { destruct (contains t (name msg)) eqn:Hc; [reflexivity|].
          rewrite (process_check_fresh t msg Hc) in Hcheck. discriminate. }
        apply Hnd, in_or_app. left. now apply contains_In. }
    destruct (resolve msg) as [e'|v] eqn:Hv.
    { simpl. rewrite Hv. simpl. rewrite app_nil_r. now destruct t. }
    rewrite (unhandled_effect msg k v Hv) in *. simpl in Hnd |- *.
    assert (Hc : contains t (name msg) = false).
    { destruct (contains t (name msg)) eqn:Hc; [|reflexivity].
      exfalso. apply List.NoDup_remove_2 in Hnd.
      apply Hnd, in_or_app. left. now apply contains_In. }
    unfold add_node. change (name (settled msg v)) with (name msg).
    rewrite Hc. rewrite IH.
    + simpl. now rewrite <- app_assoc.
    + unfold node_names. simpl. rewrite map_app, <- app_assoc. exact Hnd.
Qed.

(** And its outcome is the one it has without the handler, when that is a
    value; it is an exception when that is an exception. *)
Lemma trace_run_fresh_outcome c t :
  List.NoDup (node_names t ++ map (@name _) (fst (unhandled resolve c))) ->
  match snd (unhandled resolve c) with
  | inr v => snd (trace_run resolve c t) = inr v
  | inl _ => exists e, snd (trace_run resolve c t) = inl e
  end.
Proof.
  revert t. induction c as [v|e|msg k IH]; intros t Hnd.
  - reflexivity.
  - simpl. eauto.
  - simpl trace_run. unfold trace_apply.
    destruct (resolve msg) as [e'|v] eqn:Hv.
    { simpl. rewrite Hv. simpl.
      destruct (process_check t msg) as [e|[]]; simpl; eauto. }
    rewrite (unhandled_effect msg k v Hv) in *. simpl in Hnd |- *.
    assert (Hc : contains t (name msg) = false).
    { destruct (contains t (name msg)) eqn:Hc; [|reflexivity].
      exfalso. apply List.NoDup_remove_2 in Hnd.
      apply Hnd, in_or_app. left. now apply contains_In. }
    rewrite (process_check_fresh t msg Hc).
    unfold add_node. change (name (settled msg v)) with (name msg).
    rewrite Hc. apply IH.
    unfold node_names. simpl. rewrite map_app, <- app_assoc. exact Hnd.
Qed.

Lemma call_trace_fresh gt c input :
  List.NoDup ("_INPUT" :: map (@name _) (fst (unhandled resolve c))) ->
  fst (trace_run resolve c (input_trace gt input))
  = recorded gt input (fst (unhandled resolve c)).
Proof.
  intros Hnd. now rewrite trace_run_fresh_trace.
Qed.

Lemma node_names_exit_trace gt t :
  node_names (exit_trace site_is_subsample gt t) = node_names t.
Proof.
  unfold exit_trace, node_names. destruct (String.eqb gt "dense");
    [now rewrite nodes_identify_dense_edges | reflexivity].
Qed.

Lemma map_fst_entry (sites : list (Site Value)) :
  map fst (map (@entry _) sites) = map (@name _) sites.
Proof. now rewrite map_map. Qed.

Lemma call_trace_fresh_returns gt c input sites v :
  unhandled resolve c = (sites, inr v) ->
  List.NoDup ("_INPUT" :: map (@name _) sites ++ ["_RETURN"]) ->
  exists t,
    call_trace site_is_subsample resolve gt c input = (t, inr v)
    /\ nodes t = ("_INPUT", input)
                 :: map (@entry _) sites ++ [("_RETURN", return_site v)]
    /\ edges t
       = edges (exit_trace site_is_subsample gt (recorded gt input sites)).
Proof.
  intros Hun Hnd.
  assert (Hnd1 : List.NoDup ("_INPUT" :: map (@name _) sites)).
  { change (List.NoDup (("_INPUT" :: map (@name _) sites) ++ ["_RETURN"]))
      in Hnd. now apply List.NoDup_app_remove_r in Hnd. }
  assert (Hret : ~ In "_RETURN" ("_INPUT" :: map (@name _) sites)).
  { change (List.NoDup (("_INPUT" :: map (@name _) sites) ++ ["_RETURN"]))
      in Hnd. intros Hin.
    apply (NoDup_app_disjoint _ _ _ "_RETURN" Hnd Hin). now left. }
  pose proof (call_trace_fresh gt c input) as Htrace.
  pose proof (trace_run_fresh_outcome c (input_trace gt input)) as Hout.
  rewrite Hun in Htrace, Hout. simpl in Htrace, Hout.
  specialize (Htrace Hnd1). specialize (Hout Hnd1).
  unfold call_trace.
  destruct (trace_run resolve c (input_trace gt input)) as [t1 r].
  simpl in Htrace, Hout. subst t1 r.
  set (t2 := exit_trace site_is_subsample gt (recorded gt input sites)).
  assert (Hn : nodes t2 = nodes (recorded gt input sites)).
  { unfold t2, exit_trace. destruct (String.eqb gt "dense");
      [now rewrite nodes_identify_dense_edges | reflexivity]. }
  assert (Hc : contains t2 "_RETURN" = false).
  { destruct (contains t2 "_RETURN") eqn:Hc; [|reflexivity].
    exfalso. apply Hret. apply contains_In in Hc. unfold node_names in Hc.
    rewrite Hn in Hc. simpl in Hc. now rewrite map_fst_entry in Hc. }
  unfold add_node. rewrite Hc. eexists. split; [reflexivity|]. simpl.
  now rewrite Hn.
Qed.

Lemma call_trace_fresh_raises gt c input sites e :
  unhandled resolve c = (sites, inl e) ->
  List.NoDup ("_INPUT" :: map (@name _) sites) ->
  exists e',
    call_trace site_is_subsample resolve gt c input
    = (exit_trace site_is_subsample gt (recorded gt input sites), inl e').
Proof.
  intros Hun Hnd.
  pose proof (call_trace_fresh gt c input) as Htrace.
  pose proof (trace_run_fresh_outcome c (input_trace gt input)) as Hout.
  rewrite Hun in Htrace, Hout. simpl in Htrace, Hout.
  specialize (Htrace Hnd). destruct (Hout Hnd) as [e' He'].
  unfold call_trace.
  destruct (trace_run resolve c (input_trace gt input)) as [t1 r].
  simpl in Htrace, He'. subst t1 r. eauto.
Qed.

(** X8: when the computation, run without the handler, performs sites with
    pairwise distinct names other than [_INPUT] and [_RETURN] and returns
    [v], the call returns [v] too, and its trace holds the [_INPUT] node,
    then those sites in order with their settled values, then the
    [_RETURN] node; its edges are the ones the exit hook infers from the
    sites. *)
Theorem tracing_is_transparent s a kw sites v :
  unhandled resolve (fn (self s) a kw) = (sites, inr v) ->
  List.NoDup ("_INPUT" :: map (@name _) sites ++ ["_RETURN"]) ->
  exists s' t,
    TracePoutine_call site_is_subsample resolve a kw s = (s', inr v)
    /\ live_trace s' = Some t
    /\ nodes t = ("_INPUT", input_site a kw)
                 :: map (@entry _) sites ++ [("_RETURN", return_site v)]
    /\ edges t
       = edges (exit_trace site_is_subsample
                  (msngr_graph_type (msngr (self s)))
                  (recorded (msngr_graph_type (msngr (self s)))
                            (input_site a kw) sites)).
Proof.
  intros Hun Hnd.
  destruct (call_trace_fresh_returns (msngr_graph_type (msngr (self s)))
              (fn (self s) a kw) (input_site a kw) sites v Hun Hnd)
    as (t & Hct & Hn & He).
  pose proof (live_trace_after_call site_is_subsample resolve s a kw) as Hl.
  pose proof (TracePoutine_call_spec site_is_subsample resolve s a kw) as Hs.
  rewrite Hct in Hl, Hs. simpl in Hl, Hs.
  eexists _, t. split; [exact Hs|]. split; [|split; assumption].
  now rewrite Hs in Hl.
Qed.

(** X9: when the computation, run without the handler, fails after sites
    with pairwise distinct names other than [_INPUT], the call raises, and
    the live trace it leaves holds the [_INPUT] node and the sites settled
    before the failure, with the edges the exit hook infers from them, and
    no [_RETURN] node. *)
Theorem failed_call_keeps_partial_trace s a kw sites e :
  unhandled resolve (fn (self s) a kw) = (sites, inl e) ->
  List.NoDup ("_INPUT" :: map (@name _) sites) ->
  exists s' e',
    TracePoutine_call site_is_subsample resolve a kw s = (s', inl e')
    /\ live_trace s'
       = Some (exit_trace site_is_subsample
                 (msngr_graph_type (msngr (self s)))
                 (recorded (msngr_graph_type (msngr (self s)))
                           (input_site a kw) sites)).
Proof.
  intros Hun Hnd.
  destruct (call_trace_fresh_raises (msngr_graph_type (msngr (self s)))
              (fn (self s) a kw) (input_site a kw) sites e Hun Hnd)
    as (e' & Hct).
  pose proof (live_trace_after_call site_is_subsample resolve s a kw) as Hl.
  pose proof (TracePoutine_call_spec site_is_subsample resolve s a kw) as Hs.
  rewrite Hct in Hl, Hs. simpl in Hl, Hs.
  eexists _, e'. split; [exact Hs|]. now rewrite Hs in Hl.
Qed.

(** X10: in the trace of any call, whatever its graph type and however it
    ends, every edge goes from a node of type [sample] to a node of type
    [sample] recorded strictly later: the trace has no cycle, and the
    [_INPUT], [_RETURN] and [param] nodes have no edge. *)
Theorem call_trace_edges_go_forward s a kw :
  exists t,
    live_trace (fst (TracePoutine_call site_is_subsample resolve a kw s))
    = Some t
    /\ forall u v,
         In (u, v) (edges t) ->
         exists i j P N,
           (i < j)%nat
           /\ nodes t !! i = Some (u, P)
           /\ nodes t !! j = Some (v, N)
           /\ type P = "sample" /\ type N = "sample".
Proof.
  eexists. split; [apply live_trace_after_call|].
  set (Q := fun t : Trace Value =>
    forall u v, In (u, v) (edges t) ->
      exists i j P N,
        (i < j)%nat /\ nodes t !! i = Some (u, P)
        /\ nodes t !! j = Some (v, N)
        /\ type P = "sample" /\ type N = "sample").
  enough (H : List.NoDup (node_names
                 (fst (call_trace site_is_subsample resolve
                         (msngr_graph_type (msngr (self s)))
                         (fn (self s) a kw) (input_site a kw))))
              /\ Q (fst (call_trace site_is_subsample resolve
                           (msngr_graph_type (msngr (self s)))
                           (fn (self s) a kw) (input_site a kw))))
    by apply H.
  apply (call_trace_invariant site_is_subsample resolve
           (fun t => List.NoDup (node_names t) /\ Q t)).
  - intros key site t t' [Hnd HQ] Ha. split.
    + now apply (add_node_NoDup key site t).
    + apply add_node_ok in Ha as (_ & Hn & He & _).
      intros u v Huv. rewrite He in Huv.
      destruct (HQ u v Huv) as (i & j & P & N & Hlt & Hi & Hj & Ht).
      exists i, j, P, N. rewrite Hn.
      repeat split; try tauto; now apply lookup_app_l_Some.
  - intros t [Hnd HQ]. split; [now rewrite node_names_exit_trace|].
    unfold exit_trace. destruct (String.eqb _ "dense"); [|exact HQ].
    intros u v Huv. rewrite nodes_identify_dense_edges.
    destruct (has_edge t u v) eqn:Hold.
    + apply has_edge_In in Hold. now apply HQ.
    + apply (dense_edge_shape site_is_subsample t u v Hnd Huv).
      intros Hin. apply has_edge_In in Hin. congruence.
  - split.
    + unfold node_names. simpl. constructor; [intros []|constructor].
    + intros u v [].
Qed.

(** ** _reset and get_trace *)

Lemma reset_spec s l t inp a kw :
  live_loc s = Some l ->
  heap s !! l = Some t ->
  get_node t "_INPUT" = Some inp ->
  args inp = Some a ->
  kwargs inp = Some kw ->
  _reset s
  = (set_self
       {| msngr := {| msngr_id := msngr_id (msngr (self s));
                      msngr_graph_type := msngr_graph_type (msngr (self s));
                      msngr_trace := Some (length (heap s)) |};
          fn := fn (self s);
          poutine_trace := poutine_trace (self s) |}
       (set_heap
          (heap s ++ [input_trace (msngr_graph_type (msngr (self s)))
                                  (reset_site a kw)]) s),
     inr tt).
Proof.
  unfold live_loc. intros Hl Ht Hin Ha Hkw.
  unfold _reset, bind, get_graph_type, alloc.
  set (gt := msngr_graph_type (msngr (self s))).
  set (s1 := set_heap (heap s ++ [Trace_new gt]) s).
  assert (H1 : heap s1 = heap s ++ [Trace_new gt]) by reflexivity.
  unfold get_msngr_trace. change (self s1) with (self s). rewrite Hl.
  unfold read. rewrite H1, (lookup_app_l_Some _ _ _ _ Ht), Hin.
  unfold getitem at 1, ret at 1. rewrite Ha.
  unfold getitem at 1, ret at 1. rewrite Hkw.
  unfold getitem, ret.
  erewrite Trace_add_node_spec by (rewrite H1; apply lookup_snoc_last).
  simpl. now rewrite insert_snoc_last.
Qed.

(** X11: when the live trace holds an [_INPUT] node with its [args] and
    [kwargs], [_reset] succeeds; the messenger then refers to a new trace
    of its graph type that holds one node, [_INPUT] of type [input] with the
    same [args] and [kwargs], and no edge; the old trace object, the
    poutine's own [trace] attribute and the stack are as before. *)
Theorem reset_keeps_arguments s l t inp a kw :
  live_loc s = Some l ->
  heap s !! l = Some t ->
  get_node t "_INPUT" = Some inp ->
  args inp = Some a ->
  kwargs inp = Some kw ->
  exists s',
    _reset s = (s', inr tt)
    /\ live_trace s'
       = Some (input_trace (msngr_graph_type (msngr (self s)))
                           (reset_site a kw))
    /\ live_loc s' = Some (length (heap s))
    /\ heap s' !! l = Some t
    /\ poutine_trace (self s') = poutine_trace (self s)
    /\ PYRO_STACK s' = PYRO_STACK s.
Proof.
  intros Hl Ht Hin Ha Hkw. eexists.
  split; [apply (reset_spec s l t inp a kw Hl Ht Hin Ha Hkw)|].
  unfold live_trace, live_loc. simpl. rewrite lookup_snoc_last.
  repeat split. now apply lookup_app_l_Some.
Qed.

Lemma call_trace_input gt c input :
  get_node (fst (call_trace site_is_subsample resolve gt c input)) "_INPUT"
  = Some input.
Proof.
  pose proof (call_trace_nodes site_is_subsample resolve gt c input) as Hn.
  simpl in Hn. unfold get_node.
  destruct (snd (call_trace site_is_subsample resolve gt c input));
    [destruct Hn as [rest ->] | destruct Hn as [middle ->]]; reflexivity.
Qed.

Lemma reset_keeps_arguments_aux s l t a kw :
  live_loc s = Some l ->
  heap s !! l = Some t ->
  get_node t "_INPUT" = Some (input_site a kw) ->
  exists s',
    _reset s = (s', inr tt)
    /\ live_trace s'
       = Some (input_trace (msngr_graph_type (msngr (self s)))
                           (reset_site a kw))
    /\ live_loc s' = Some (length (heap s))
    /\ heap s' !! l = Some t
    /\ poutine_trace (self s') = poutine_trace (self s).
Proof.
  intros Hl Ht Hin. eexists.
  split; [apply (reset_spec s l t (input_site a kw) a kw Hl Ht Hin);
          reflexivity|].
  unfold live_trace, live_loc. simpl. rewrite lookup_snoc_last.
  repeat split. now apply lookup_app_l_Some.
Qed.

(** X12: after a call, however it ends, the poutine's [trace] attribute
    and its messenger's refer to the same object.  A [_reset] then
    succeeds: the messenger gets a new trace that holds only the [_INPUT]
    node, now of type [input], with the arguments of the call, while the
    poutine's attribute still refers to the trace of the call, which is
    unchanged. *)
Theorem reset_after_call s a kw :
  let s1 := fst (TracePoutine_call site_is_subsample resolve a kw s) in
  poutine_trace (self s1) = live_loc s1
  /\ exists s2,
       _reset s1 = (s2, inr tt)
       /\ live_trace s2
          = Some (input_trace (msngr_graph_type (msngr (self s)))
                              (reset_site a kw))
       /\ poutine_trace (self s2) = live_loc s1
       /\ live_loc s2 <> live_loc s1
       /\ match live_loc s1 with
          | Some l => heap s2 !! l = live_trace s1
          | None => False
          end.
Proof.
  intros s1.
  pose proof (TracePoutine_call_spec site_is_subsample resolve s a kw) as Hs.
  apply (f_equal fst) in Hs. simpl in Hs. fold s1 in Hs.
  set (t := fst (call_trace site_is_subsample resolve
                   (msngr_graph_type (msngr (self s)))
                   (fn (self s) a kw) (input_site a kw))) in *.
  assert (Hl : live_loc s1 = Some (length (heap s))) by now rewrite Hs.
  assert (Ht : heap s1 !! length (heap s) = Some t).
  { rewrite Hs. simpl. apply lookup_snoc_last. }
  assert (Hgt : msngr_graph_type (msngr (self s1))
                = msngr_graph_type (msngr (self s))) by now rewrite Hs.
  split; [now rewrite Hs|].
  destruct (reset_keeps_arguments_aux s1 (length (heap s)) t a kw Hl Ht
              (call_trace_input _ _ _))
    as (s2 & Hreset & Hlive & Hloc & Hold & Hp).
  exists s2. rewrite Hgt in Hlive. split; [exact Hreset|].
  split; [exact Hlive|]. split; [now rewrite Hp, Hs|]. split.
  - rewrite Hloc, Hl. intros [= H]. rewrite Hs in H. simpl in H.
    rewrite length_app in H. simpl in H. lia.
  - rewrite Hl. unfold live_trace. rewrite Hl. now rewrite Hold, Ht.
Qed.

(** X13: [TracePoutine.get_trace] returns, when the call returns, a
    reference to a new object, other than the live trace, with the contents
    of the trace of the call, which stays the live trace; when the call
    raises it raises the same exception and makes no copy. *)
Theorem get_trace_returns_copy s a kw :
  let out := TracePoutine_call site_is_subsample resolve a kw s in
  match snd out with
  | inr _ =>
      exists s' copy,
        TracePoutine_get_trace site_is_subsample resolve a kw s
        = (s', inr copy)
        /\ heap s' !! copy = live_trace (fst out)
        /\ live_trace s' = live_trace (fst out)
        /\ live_loc s' <> Some copy
  | inl e =>
      TracePoutine_get_trace site_is_subsample resolve a kw s
      = (fst out, inl e)
  end.
Proof.
  simpl. unfold TracePoutine_get_trace, bind.
  pose proof (live_trace_after_call site_is_subsample resolve s a kw) as Hl.
  rewrite TracePoutine_call_spec in *. simpl in *.
  destruct (snd (call_trace _ _ _ _ _)); [reflexivity|].
  unfold TraceMessenger_get_trace, bind, get_msngr_trace, read, alloc.
  simpl. rewrite lookup_snoc_last. eexists _, _.
  split; [reflexivity|]. simpl. rewrite Hl. simpl.
  split; [apply lookup_snoc_last|]. split.
  - unfold live_trace, live_loc. simpl.
    apply lookup_app_l_Some, lookup_snoc_last.
  - unfold live_loc. simpl. intros [= H].
    rewrite length_app in H. simpl in H. lia.
Qed.

End HandlerMore.

(** * The further theorems at concrete inputs *)

Lemma dense_edge_joins_sample_sites_witness :
  "x@1" <> "y"
  /\ exists P N,
       get_node plate_trace "x@1" = Some P /\ get_node plate_trace "y" = Some N
       /\ type P = "sample" /\ type N = "sample"
       /\ no_subsample N = false
       /\ ~ frames_differ_in_counter N P.
Proof.
  apply (dense_edge_joins_sample_sites no_subsample plate_trace "x@1" "y"
           plate_trace_NoDup).
  - vm_compute. right. left. reflexivity.
  - simpl. tauto.
Defined.

Lemma dense_edge_goes_forward_witness :
  exists i j P N,
    (i < j)%nat
    /\ nodes plate_trace !! i = Some ("x@1", P)
    /\ nodes plate_trace !! j = Some ("y", N).
Proof.
  apply (dense_edge_goes_forward no_subsample plate_trace "x@1" "y"
           plate_trace_NoDup).
  - vm_compute. right. left. reflexivity.
  - simpl. tauto.
Defined.

(** The first effect of [sample_twice], in the state the handler is
    installed in. *)
Lemma fresh_effect_is_recorded_witness :
  let s := fst (Messenger_enter
                  (fst (TracePoutine_setup [] []
                          (world [] [] (poutine_of "flat" sample_twice))))) in
  exists s' t',
    apply_stack resolve_zero (sample_site "x" []) s = (s', inr 0)
    /\ live_loc s' = Some 0%nat
    /\ heap s' !! 0%nat = Some t'
    /\ nodes t' = [("_INPUT", input_site [] []);
                   ("x", settled (sample_site "x" []) 0)]
    /\ edges t' = []
    /\ get_node t' "x" = Some (settled (sample_site "x" []) 0)
    /\ (forall key, key <> "x" ->
          get_node t' key
          = get_node (input_trace "flat" (input_site [] [])) key)
    /\ PYRO_STACK s' = [7%nat].
Proof.
  intros s.
  apply (fresh_effect_is_recorded resolve_zero s 0%nat
           (input_trace "flat" (input_site [] []))
           (sample_site "x" []) 0); reflexivity.
Defined.

Lemma mixed_model_names_NoDup :
  List.NoDup
    ("_INPUT" :: map (@name _)
                   (fst (unhandled resolve_zero (mixed_model [] [])))
              ++ ["_RETURN"]).
Proof.
  vm_compute.
  repeat (constructor; [simpl; intuition discriminate|]). constructor.
Qed.

(** The mixed model under a [dense] poutine. *)
Lemma tracing_is_transparent_witness :
  let s := world [] [] (poutine_of "dense" mixed_model) in
  let sites := fst (unhandled resolve_zero (mixed_model [] [])) in
  exists s' t,
    TracePoutine_call no_subsample resolve_zero [] [] s = (s', inr 0)
    /\ live_trace s' = Some t
    /\ nodes t = ("_INPUT", input_site [] [])
                 :: map (@entry _) sites ++ [("_RETURN", return_site 0)]
    /\ edges t
       = edges (exit_trace no_subsample "dense"
                  (recorded "dense" (input_site [] []) sites)).
Proof.
  intros s sites.
  apply (tracing_is_transparent no_subsample resolve_zero s [] [] sites 0).
  - reflexivity.
  - exact mixed_model_names_NoDup.
Defined.

(** The edges of that trace: [w] is a [param] site and has none. *)
Example mixed_model_edges :
  option_map (fun t => edges t)
    (live_trace
       (fst (TracePoutine_call no_subsample resolve_zero [] []
               (world [] [] (poutine_of "dense" mixed_model)))))
  = Some [("x@0", "y"); ("x@1", "y")].
Proof. reflexivity. Qed.

Lemma failing_fn_names_NoDup :
  List.NoDup
    ("_INPUT" :: map (@name _)
                   (fst (unhandled resolve_zero (failing_fn [] [])))).
Proof.
  vm_compute.
  repeat (constructor; [simpl; intuition discriminate|]). constructor.
Qed.

(** A computation that raises after one effect. *)
Lemma failed_call_keeps_partial_trace_witness :
  let s := world [] [] (poutine_of "dense" failing_fn) in
  let sites := fst (unhandled resolve_zero (failing_fn [] [])) in
  exists s' e',
    TracePoutine_call no_subsample resolve_zero [] [] s = (s', inl e')
    /\ live_trace s'
       = Some (exit_trace no_subsample "dense"
                 (recorded "dense" (input_site [] []) sites)).
Proof.
  intros s sites.
  apply (failed_call_keeps_partial_trace no_subsample resolve_zero s [] []
           sites (Failure "boom")).
  - reflexivity.
  - exact failing_fn_names_NoDup.
Defined.

(** A [_reset] after a call with the arguments [1, 2]. *)
Lemma reset_keeps_arguments_witness :
  let s := fst (TracePoutine_call no_subsample resolve_zero [1; 2] []
                  (world [] [] (poutine_of "flat" constant_fn))) in
  exists s',
    _reset s = (s', inr tt)
    /\ live_trace s' = Some (input_trace "flat" (reset_site [1; 2] []))
    /\ live_loc s' = Some 1%nat
    /\ heap s' !! 0%nat
       = Some {| graph_type := "flat";
                 nodes := [("_INPUT", input_site [1; 2] []);
                           ("_RETURN", return_site 0)];
                 edges := [] |}
    /\ poutine_trace (self s') = Some 0%nat
    /\ PYRO_STACK s' = [].
Proof.
  intros s.
  apply (reset_keeps_arguments s 0%nat
           {| graph_type := "flat";
              nodes := [("_INPUT", input_site [1; 2] []);
                        ("_RETURN", return_site 0)];
              edges := [] |}
           (input_site [1; 2] []) [1; 2] []); reflexivity.
Defined.

(** * Kernels *)

Section KernelFacts.

Import Kernels.

Lemma range_length (n : nat) : length (range (Z.of_nat n)) = n.
Proof. unfold range. now rewrite length_map, length_seq, Nat2Z.id. Qed.

Lemma getitem_lookup (l : list Z) (j : nat) (c : Z) :
  l !! j = Some c -> getitem l (Z.of_nat j) = inr c.
Proof.
  intros H. pose proof (lookup_lt_Some _ _ _ H) as Hlt. unfold getitem, len.
  destruct (Z.ltb_spec (Z.of_nat j) 0) as [Hneg|_]; [lia|].
  destruct (Z.leb_spec 0 (Z.of_nat j)) as [_|Hneg]; [|lia].
  destruct (Z.ltb_spec (Z.of_nat j) (Z.of_nat (length l))) as [_|Hge]; [|lia].
  simpl. now rewrite Nat2Z.id, H.
Qed.

Lemma range_down_succ (j : nat) :
  range_down (Z.of_nat (S j) - 1) = Z.of_nat j :: range_down (Z.of_nat j - 1).
Proof.
  unfold range_down, range.
  replace (Z.of_nat (S j) - 1 + 1) with (Z.of_nat (S j)) by lia.
  replace (Z.of_nat j - 1 + 1) with (Z.of_nat j) by lia.
  rewrite !Nat2Z.id, seq_S, map_app, rev_app_distr. reflexivity.
Qed.

(** The value of a list of coefficients by Horner's rule, from the last
    coefficient to the first. *)
Lemma Horner_loop_drop (x : Z) (coef : list Z) (k : nat) :
  (k <= length coef)%nat ->
  Horner_loop x coef (range_down (Z.of_nat k - 1))
    (fold_right (fun c acc => c + acc * x) 0 (drop k coef))
  = inr (fold_right (fun c acc => c + acc * x) 0 coef).
Proof.
  induction k as [|j IH]; intros Hk.
  - reflexivity.
  - rewrite range_down_succ. simpl.
    destruct (lookup_lt_is_Some_2 coef j ltac:(lia)) as [c Hc].
    rewrite (getitem_lookup coef j c Hc).
    rewrite <- IH by lia. f_equal.
    now rewrite (drop_S coef c j Hc).
Qed.

Lemma polynomial_fold_right (x : Z) (coef : list Z) (k : nat) :
  polynomial x coef k
  = x ^ Z.of_nat k * fold_right (fun c acc => c + acc * x) 0 coef.
Proof.
  revert k. induction coef as [|c rest IH]; intros k; simpl; [ring|].
  rewrite IH. replace (Z.of_nat (S k)) with (Z.of_nat k + 1) by lia.
  rewrite Z.pow_add_r by lia. ring.
Qed.

(** X14: on integers, [_Horner_evaluate] returns the value of the polynomial
    whose coefficients are given from the constant term up, and raises
    [IndexError] when there is no coefficient. *)
Theorem Horner_evaluates_polynomial (x : Z) (coef : list Z) :
  match coef with
  | [] => _Horner_evaluate x coef = inl IndexError
  | _ :: _ => _Horner_evaluate x coef = inr (polynomial x coef 0)
  end.
Proof.
  destruct coef as [|c0 rest] eqn:Hcoef; [reflexivity|]. rewrite <- Hcoef.
  assert (Hlen : (0 < length coef)%nat) by (subst coef; simpl; lia).
  unfold _Horner_evaluate, len.
  set (n := (length coef - 1)%nat).
  replace (Z.of_nat (length coef) - 1) with (Z.of_nat n) by lia.
  destruct (lookup_lt_is_Some_2 coef n ltac:(lia)) as [b Hb].
  rewrite (getitem_lookup coef n b Hb).
  rewrite polynomial_fold_right, Z.pow_0_r, Z.mul_1_l.
  rewrite <- (Horner_loop_drop x coef n) by lia. f_equal.
  rewrite (drop_S coef b n Hb), drop_ge by lia. simpl. ring.
Qed.

(** ** The active dimensions of a combination *)

Lemma StronglySorted_le_lt (l : list Z) :
  StronglySorted Z.le l -> NoDup l -> StronglySorted Z.lt l.
Proof.
  induction 1 as [|x l Hs IH Hall]; intros Hnd; constructor.
  - apply IH. now apply NoDup_cons_1_2 in Hnd.
  - apply NoDup_cons_1_1 in Hnd. rewrite Forall_forall in *.
    intros y Hy. specialize (Hall y Hy).
    assert (x <> y) by (intros ->; now apply Hnd, list_elem_of_In).
    lia.
Qed.

Lemma sorted_spec (s : gset Z) :
  StronglySorted Z.lt (sorted s) /\ forall x, In x (sorted s) <-> x ∈ s.
Proof.
  unfold sorted. split.
  - apply StronglySorted_le_lt.
    + apply StronglySorted_merge_sort; apply _.
    + rewrite merge_sort_Permutation. apply NoDup_elements.
  - intros x. rewrite <- list_elem_of_In, merge_sort_Permutation.
    apply elem_of_elements.
Qed.

Lemma combined_dims_spec (k0 : Kernel) (kern1 : Object) (s : gset Z) :
  combined_dims k0 kern1 = inr s ->
  forall x,
    x ∈ s <-> In x (active_dims k0)
              \/ exists k1, kern1 = OKernel k1 /\ In x (active_dims k1).
Proof.
  unfold combined_dims. intros H x. rewrite <- list_elem_of_In.
  destruct kern1 as [k1| |].
  - destruct (bool_decide_reflect
                (list_to_set (active_dims k0) =@{gset Z}
                 list_to_set (active_dims k1))) as [Heq|Hne].
    + injection H as <-. rewrite elem_of_list_to_set. split; [auto|].
      intros [Hx|(k & [= <-] & Hx)]; [exact Hx|].
      apply list_elem_of_In in Hx.
      apply (elem_of_list_to_set (C := gset Z)) in Hx.
      rewrite <- Heq in Hx. now apply elem_of_list_to_set in Hx.
    + destruct (len _ =? 0); [|discriminate]. injection H as <-.
      rewrite elem_of_union, !elem_of_list_to_set. split.
      * intros [Hx|Hx]; [now left | right]. exists k1.
        split; [reflexivity | now apply list_elem_of_In].
      * intros [Hx|(k & [= <-] & Hx)]; [now left | right].
        now apply list_elem_of_In.
  - injection H as <-. rewrite elem_of_list_to_set. split; [auto|].
    intros [Hx|(k & [=] & _)]. exact Hx.
  - injection H as <-. rewrite elem_of_list_to_set. split; [auto|].
    intros [Hx|(k & [=] & _)]. exact Hx.
Qed.

Lemma Kernel_init_len (self : nat) (dims : list Z) (nm : option string) :
  Kernel_init self (len dims) (Some dims) nm
  = inr {| ident := self; name := nm; input_dim := len dims;
           active_dims := dims; _subkernels := [] |}.
Proof. unfold Kernel_init. now rewrite Z.eqb_refl. Qed.

(** What a successful [Combination.__init__] went through. *)
Lemma Combination_init_inv (self : nat) (k0 : Kernel) (kern1 : Object)
    (nm : option string) (k : Kernel) :
  Combination_init self (OKernel k0) kern1 nm = inr k ->
  exists s subs,
    combined_dims k0 kern1 = inr s
    /\ k = {| ident := self; name := nm; input_dim := len (sorted s);
              active_dims := sorted s; _subkernels := subs |}
    /\ match kern1 with
       | OKernel k1 =>
           merge_subkernels (own_subkernels k1) (inherited_subkernels k0)
           = inr subs
       | _ => subs = inherited_subkernels k0
       end.
Proof.
  unfold Combination_init. intros H.
  assert (Hcase :
    match combined_dims k0 kern1 with
    | inl e => False
    | inr dims =>
        match
          match kern1 with
          | OKernel k1 =>
              merge_subkernels (own_subkernels k1) (inherited_subkernels k0)
          | _ => inr (inherited_subkernels k0)
          end
        with
        | inl e => False
        | inr subs =>
            k = {| ident := self; name := nm; input_dim := len (sorted dims);
                   active_dims := sorted dims; _subkernels := subs |}
        end
    end).
  { destruct kern1 as [k1| |]; [| |discriminate];
      (destruct (combined_dims k0 _) as [e|dims]; [discriminate|]);
      rewrite Kernel_init_len in H; simpl in H.
    - destruct (merge_subkernels _ _) as [e|subs]; [discriminate|].
      now injection H as <-.
    - now injection H as <-. }
  destruct (combined_dims k0 kern1) as [e|dims]; [destruct Hcase|].
  exists dims. destruct kern1 as [k1| |].
  - destruct (merge_subkernels _ _) as [e|subs]; [destruct Hcase|]. eauto.
  - eauto.
  - eauto.
Qed.

(** X15: the kernel a successful [Combination.__init__] builds acts on the
    dimensions of its first kernel and, when the second is a kernel, of the
    second one: they are listed once each in increasing order, and
    [input_dim] is their number. *)
Theorem Combination_active_dims (self : nat) (k0 : Kernel) (kern1 : Object)
    (nm : option string) (k : Kernel) :
  Combination_init self (OKernel k0) kern1 nm = inr k ->
  StronglySorted Z.lt (active_dims k)
  /\ input_dim k = len (active_dims k)
  /\ forall x,
       In x (active_dims k)
       <-> In x (active_dims k0)
           \/ exists k1, kern1 = OKernel k1 /\ In x (active_dims k1).
Proof.
  intros H. apply Combination_init_inv in H as (s & subs & Hdims & -> & _).
  simpl. destruct (sorted_spec s) as [Hsorted Hin].
  split; [exact Hsorted|]. split; [reflexivity|].
  intros x. rewrite Hin. now apply combined_dims_spec.
Qed.

(** X16: [Combination.__init__] of two kernels raises [ValueError] exactly
    when their active dimensions have a dimension in common without being
    the same dimensions. *)
Theorem Combination_ValueError_iff (self : nat) (k0 k1 : Kernel)
    (nm : option string) :
  (exists m,
     Combination_init self (OKernel k0) (OKernel k1) nm = inl (ValueError m))
  <-> (exists x, In x (active_dims k0) /\ In x (active_dims k1))
      /\ ~ (forall x, In x (active_dims k0) <-> In x (active_dims k1)).
Proof.
  unfold Combination_init, combined_dims.
  set (s0 := list_to_set (active_dims k0) : gset Z).
  set (s1 := list_to_set (active_dims k1) : gset Z).
  assert (Hs0 : forall x, x ∈ s0 <-> In x (active_dims k0)).
  { intros x. unfold s0. now rewrite elem_of_list_to_set, list_elem_of_In. }
  assert (Hs1 : forall x, x ∈ s1 <-> In x (active_dims k1)).
  { intros x. unfold s1. now rewrite elem_of_list_to_set, list_elem_of_In. }
  assert (Hmerge : forall s : gset Z,
    ~ exists m,
        match Kernel_init self (len (sorted s)) (Some (sorted s)) nm with
        | inl e => inl e
        | inr k =>
            match merge_subkernels (own_subkernels k1)
                    (inherited_subkernels k0) with
            | inl e => inl e
            | inr subs =>
                inr {| ident := ident k; name := name k;
                       input_dim := input_dim k;
                       active_dims := active_dims k; _subkernels := subs |}
            end
        end = inl (ValueError m)).
  { intros s [m Hm]. rewrite Kernel_init_len in Hm.
    generalize dependent (inherited_subkernels k0).
    induction (own_subkernels k1) as [|[n v] items IH]; intros subs;
      simpl; [discriminate|].
    destruct (dict_contains n subs); [|apply IH].
    destruct (dict_get n subs) as [w|]; [|discriminate].
    destruct (negb (w =? v)%nat); [discriminate | apply IH]. }
  destruct (bool_decide_reflect (s0 = s1)) as [Heq|Hne].
  { split; [intros H; now apply Hmerge in H|].
    intros [_ Hdiff]. exfalso. apply Hdiff. intros x.
    now rewrite <- Hs0, <- Hs1, Heq. }
  assert (Hdiff : ~ (forall x, In x (active_dims k0) <-> In x (active_dims k1))).
  { intros Hall. apply Hne. apply set_eq. intros x.
    now rewrite Hs0, Hs1. }
  destruct (Z.eqb_spec (len (elements (s0 ∩ s1))) 0) as [Hempty|Hcommon].
  - split; [intros H; now apply Hmerge in H|].
    intros [[x [Hx0 Hx1]] _]. exfalso.
    assert (Hx : x ∈ elements (s0 ∩ s1)).
    { apply elem_of_elements, elem_of_intersection.
      now rewrite Hs0, Hs1. }
    unfold len in Hempty. destruct (elements (s0 ∩ s1)); [|simpl in *; lia].
    now apply elem_of_nil in Hx.
  - split; [intros _ | eauto].
    split; [|exact Hdiff].
    destruct (elements (s0 ∩ s1)) as [|x rest] eqn:Hel;
      [now unfold len in Hcommon|].
    assert (Hx : x ∈ elements (s0 ∩ s1)) by (rewrite Hel; now left).
    apply elem_of_elements, elem_of_intersection in Hx as [Hx0 Hx1].
    exists x. now rewrite <- Hs0, <- Hs1.
Qed.

(** ** The subkernels of a combination *)

Lemma key_eqb_eq (a b : option string) : key_eqb a b = true <-> a = b.
Proof.
  destruct a as [x|], b as [y|]; simpl; try (split; [discriminate|easy]).
  - rewrite String.eqb_eq. split; [now intros -> | now intros [= ->]].
  - easy.
Qed.


Lemma key_eqb_neq (a b : option string) : key_eqb a b = false <-> a <> b.
Proof.
  rewrite <- key_eqb_eq. destruct (key_eqb a b); split; congruence.
Qed.


Lemma dict_get_set_ne (n m : option string) (v : nat)
    (d : list (option string * nat)) :
  n <> m -> dict_get m (dict_set n v d) = dict_get m d.
Proof.
  intros Hne. induction d as [|[k x] rest IH]; simpl.
  - apply key_eqb_neq in Hne. now rewrite Hne.
  - destruct (key_eqb k n) eqn:Hk; simpl.
    + apply key_eqb_eq in Hk. subst k. apply key_eqb_neq in Hne.
      now rewrite Hne.
    + now rewrite IH.
Qed.

Lemma dict_contains_false (n : option string)
    (d : list (option string * nat)) :
  dict_contains n d = false <-> dict_get n d = None.
Proof.
  unfold dict_contains. destruct (dict_get n d); split; congruence.
Qed.




Lemma merge_subkernels_clash (items subs : list (option string * nat))
    (n : option string) (v v' : nat) :
  dict_get n subs = Some v -> In (n, v') items -> v <> v' ->
  exists m, merge_subkernels items subs = inl (KeyError m).
Proof.
  revert subs. induction items as [|[n0 v0] rest IH]; intros subs Hn Hin Hne;
    [destruct Hin|]. simpl.
  destruct (dict_contains n0 subs) eqn:Hc.
  - destruct (dict_get n0 subs) as [w|] eqn:Hw; [|eauto].
    destruct (Nat.eqb_spec w v0) as [->|Hwv]; simpl; [|eauto].
    destruct Hin as [[= -> ->]|Hin]; [congruence|].
    now apply IH.
  - apply dict_contains_false in Hc.
    destruct Hin as [[= -> ->]|Hin]; [congruence|].
    apply IH; [|exact Hin|exact Hne].
    rewrite dict_get_set_ne; [exact Hn|]. intros <-. congruence.
Qed.

(** X18: when the active dimensions of two kernels can be combined and the
    two bring different objects under one name, [Combination.__init__]
    raises [KeyError]. *)
Theorem Combination_name_clash (self : nat) (k0 k1 : Kernel)
    (nm : option string) (s : gset Z) (n : option string) (v v' : nat) :
  combined_dims k0 (OKernel k1) = inr s ->
  dict_get n (inherited_subkernels k0) = Some v ->
  In (n, v') (own_subkernels k1) ->
  v <> v' ->
  exists m,
    Combination_init self (OKernel k0) (OKernel k1) nm = inl (KeyError m).
Proof.
  intros Hdims Hn Hin Hne. unfold Combination_init.
  rewrite Hdims, Kernel_init_len. simpl.
  destruct (merge_subkernels_clash _ _ n v v' Hn Hin Hne) as [m ->]. eauto.
Qed.

End KernelFacts.

(** The sum of [rbf] and [linear]. *)
Lemma Combination_active_dims_witness :
  exists k,
    Kernels.add 9 Kernels.rbf (Kernels.OKernel Kernels.linear) None = inr k
    /\ Kernels.active_dims k = [0; 1; 2]
    /\ StronglySorted Z.lt (Kernels.active_dims k)
    /\ Kernels.input_dim k = 3.
Proof.
  eexists. split; [vm_compute; reflexivity|]. split; [reflexivity|].
  destruct (Combination_active_dims 9 Kernels.rbf
              (Kernels.OKernel Kernels.linear) None _ eq_refl)
    as (Hsorted & Hlen & _).
  split; [exact Hsorted | exact Hlen].
Defined.


(** Two objects named [RBF] on disjoint dimensions. *)
Lemma Combination_name_clash_witness :
  exists m,
    Kernels.Combination_init 9 (Kernels.OKernel Kernels.rbf)
      (Kernels.OKernel Kernels.rbf_twin) None
    = inl (Kernels.KeyError m).
Proof.
  apply (Combination_name_clash 9 Kernels.rbf Kernels.rbf_twin None
           (list_to_set [0; 1; 2]) (Some "RBF") 1%nat 4%nat).
  - vm_compute. reflexivity.
  - reflexivity.
  - now left.
  - discriminate.
Defined.

(** The same object twice is no clash. *)
Example Combination_with_itself :
  exists k,
    Kernels.Combination_init 9 (Kernels.OKernel Kernels.rbf)
      (Kernels.OKernel Kernels.rbf) None = inr k
    /\ Kernels._subkernels k = [(Some "RBF", 1%nat)].
Proof. eexists. split; vm_compute; reflexivity. Qed.
